(** * Knowledge-base preprocessing (preprocess.py): chunker, chunk store,
      ingestion and embedding backfill.

    A shallow embedding of [src/preprocess.py].  Python strings are lists
    of Unicode code points, the SQLite file is a record of two tables, and
    the functions that talk to the database and to the embedding service
    live in a small state-and-exception monad. *)

From Stdlib Require Import String Ascii.
From stdpp Require Import base numbers list.

Local Open Scope nat_scope.

(** ** Python strings *)

(** A [str] is a sequence of code points. *)
Definition char : Type := N.
Definition str : Type := list char.

(** A literal of the source, written as a Rocq string (ASCII only). *)
Definition lit (s : string) : str := N_of_ascii <$> list_ascii_of_string s.

Definition NL : char := 10%N.     (* newline *)
Definition SPACE : char := 32%N.  (* space *)
Definition QUOTE : char := 34%N.  (* double quote *)

(** [str.isspace] on one code point: the table of CPython's
    [_PyUnicode_IsWhitespace]. *)
Definition isspace (c : char) : bool :=
  ((9 <=? c) && (c <=? 13) || (28 <=? c) && (c <=? 32)
   || (c =? 133) || (c =? 160) || (c =? 5760)
   || (8192 <=? c) && (c <=? 8202)
   || (c =? 8232) || (c =? 8233) || (c =? 8239) || (c =? 8287)
   || (c =? 12288))%N.

(** [s.replace('\n', ' ')]: the pattern is one character long, so every
    occurrence is replaced independently. *)
Definition replace_nl_char (c : char) : char := if (c =? NL)%N then SPACE else c.
Definition replace_nl (s : str) : str := replace_nl_char <$> s.

(** [s.lstrip()], [s.rstrip()], [s.strip()] with no argument. *)
Fixpoint lstrip (s : str) : str :=
  match s with
  | [] => []
  | c :: s' => if isspace c then lstrip s' else s
  end.

Fixpoint rstrip (s : str) : str :=
  match s with
  | [] => []
  | c :: s' =>
      match rstrip s' with
      | [] => if isspace c then [] else [c]
      | r => c :: r
      end
  end.

Definition strip (s : str) : str := rstrip (lstrip s).

(** [s[i:j]] for non-negative [i], [j]: out-of-range bounds are clipped. *)
Definition slice {A} (s : list A) (i j : nat) : list A := take (j - i) (drop i s).

(** [s[i:]] and [s[-n:]] (for [n > 0]). *)
Definition slice_from {A} (s : list A) (i : nat) : list A := drop i s.
Definition slice_last {A} (s : list A) (n : nat) : list A := drop (length s - n) s.

(** [range(start, stop, step)] for a positive [step]; its length is
    computed as CPython does, [(stop - start + step - 1) // step]. *)
Definition range (start stop step : nat) : list nat :=
  (λ k, start + k * step) <$> seq 0 ((stop - start + step - 1) / step).

(** [enumerate(l)] *)
Definition enumerate {A} (l : list A) : list (nat * A) := imap (λ i x, (i, x)) l.

(** ** The chunker *)

Definition CHUNK_SIZE : nat := 1000.
Definition CHUNK_OVERLAP : nat := 200.

(** The whitespace normalisation that opens [create_chunks]. *)
Definition normalize (text : str) : str := strip (replace_nl text).

(** [create_chunks]: the loop appends one window per start offset. *)
Definition create_chunks (text : str) : list str :=
  let text := normalize text in
  if length text <=? CHUNK_SIZE then [text]
  else
    foldl (λ chunks i, chunks ++ [slice text i (i + CHUNK_SIZE)])
          [] (range 0 (length text) (CHUNK_SIZE - CHUNK_OVERLAP)).

(** ** The regular expressions of [process_markdown] *)

(** [s.startswith(p)] and [s.endswith(p)]. *)
Fixpoint startswith (p s : str) : bool :=
  match p, s with
  | [], _ => true
  | a :: p', b :: s' => (a =? b)%N && startswith p' s'
  | _ :: _, [] => false
  end.

Definition endswith (p s : str) : bool := startswith (reverse p) (reverse s).

(** The least offset at which [p] occurs in [s]. *)
Fixpoint find (p s : str) {struct s} : option nat :=
  if startswith p s then Some 0
  else match s with
       | [] => None
       | _ :: s' => S <$> find p s'
       end.

Definition FRONTMATTER_OPEN : str := lit "---" ++ [NL].
Definition FRONTMATTER_CLOSE : str := [NL] ++ lit "---" ++ [NL].

(** [re.match(FRONTMATTER, content, re.DOTALL)] for the pattern
    [^---\n(.*?)\n---\n]: the lazy group stops at the first closing line.
    The result is [(match.group(1), match.end())]. *)
Definition match_frontmatter (content : str) : option (str * nat) :=
  if startswith FRONTMATTER_OPEN content then
    let rest := drop (length FRONTMATTER_OPEN) content in
    match find FRONTMATTER_CLOSE rest with
    | Some j =>
        Some (take j rest, length FRONTMATTER_OPEN + j + length FRONTMATTER_CLOSE)
    | None => None
    end
  else None.

(** The tail of a field pattern, a lazy group followed by a double quote;
    without [re.DOTALL] the dot does not match a newline. *)
Fixpoint lazy_to_quote (s : str) : option str :=
  match s with
  | [] => None
  | c :: s' =>
      if (c =? QUOTE)%N then Some []
      else if (c =? NL)%N then None
      else cons c <$> lazy_to_quote s'
  end.

(** The literal that opens the pattern of field [key]: the key, a colon,
    a space and a double quote. *)
Definition field_open (key : str) : str := key ++ lit ": " ++ [QUOTE].

(** One attempt of the field pattern at the start of [s]. *)
Definition match_field_here (key s : str) : option str :=
  if startswith (field_open key) s
  then lazy_to_quote (drop (length (field_open key)) s)
  else None.

(** [re.search(FIELD, meta)]: the leftmost offset at which the pattern
    matches; the result is [group(1)], or [None] for Python's [None]. *)
Fixpoint search_field (key s : str) {struct s} : option str :=
  match match_field_here key s with
  | Some g => Some g
  | None =>
      match s with
      | [] => None
      | _ :: s' => search_field key s'
      end
  end.

(** ** The chunk store *)

Definition bytes : Type := list Byte.byte.

(** A record of [discourse_posts.json]. *)
Module Post.
Record t : Type := mk {
  post_id : Z; topic_id : Z; topic_title : str; post_number : Z;
  author : str; created_at : str; like_count : Z; url : str;
  content : str }.
End Post.

(** The provenance columns of [discourse_chunks]. *)
Module Discourse.
Record t : Type := mk {
  post_id : Z; topic_id : Z; topic_title : str; post_number : Z;
  author : str; created_at : str; likes : Z; url : str }.
End Discourse.

(** The provenance columns of [markdown_chunks]. *)
Module Markdown.
Record t : Type := mk {
  doc_title : str; original_url : str; downloaded_at : str }.
End Markdown.

(** A row of either table: the key, the provenance columns, and the three
    columns the tables share.  [embedding = None] is SQL [NULL]. *)
Record row (P : Type) : Type := Row {
  id : N; prov : P; chunk_index : nat; content : str;
  embedding : option bytes }.
Arguments Row {P} _ _ _ _ _.
Arguments id {P} _.
Arguments prov {P} _.
Arguments chunk_index {P} _.
Arguments content {P} _.
Arguments embedding {P} _.

(** A table keeps its rows in insertion order, and the AUTOINCREMENT
    counter of [sqlite_sequence]. *)
Record table (P : Type) : Type := Table { rows : list (row P); seq_no : N }.
Arguments Table {P} _ _.
Arguments rows {P} _.
Arguments seq_no {P} _.

Record db : Type := Db {
  discourse_chunks : table Discourse.t;
  markdown_chunks : table Markdown.t }.

Definition max_id {P} (t : table P) : N := foldr N.max 0%N (id <$> rows t).

(** [INSERT INTO t (...) VALUES (...)] without a key: AUTOINCREMENT takes
    one more than the largest key the table has ever held. *)
Definition sql_insert {P} (t : table P) (p : P) (idx : nat) (c : str)
    (e : option bytes) : table P :=
  let i := (N.max (seq_no t) (max_id t) + 1)%N in
  Table (rows t ++ [Row i p idx c e]) i.

(** [UPDATE t SET embedding=? WHERE id=?]: every row whose key matches is
    rewritten; when none matches the statement changes nothing and still
    succeeds.  The second component is [cursor.rowcount]. *)
Definition set_row_embedding {P} (e : bytes) (r : row P) : row P :=
  Row (id r) (prov r) (chunk_index r) (content r) (Some e).

Definition sql_update_embedding {P} (t : table P) (e : bytes) (i : N)
    : table P * nat :=
  (Table ((λ r, if (id r =? i)%N then set_row_embedding e r else r) <$> rows t)
         (seq_no t),
   length (filter (λ r, id r = i) (rows t))).

(** [SELECT id, content FROM t WHERE embedding IS NULL] *)
Definition sql_select_unembedded {P} (t : table P) : list (N * str) :=
  (λ r, (id r, content r)) <$> filter (λ r, embedding r = None) (rows t).

(** The table a statement names. *)
Inductive table_name : Type := discourse_chunks_name | markdown_chunks_name.

(** ** Effects: the database file, the open connection, the service *)

(** The exceptions the modelled code can raise: [AttributeError] when
    [.group(1)] is called on the [None] of a failed [re.search];
    [EmbeddingRequestError] for whatever the request to the embedding
    service, or the decoding of its answer, raises; [OverflowError] and
    [UnicodeEncodeError] when [cursor.execute] cannot hand a parameter
    to SQLite. *)
Inductive exn : Type :=
  AttributeError | EmbeddingRequestError | OverflowError | UnicodeEncodeError.

(** [disk] is the committed content of the database file; [conn] is what
    the open connection sees, its uncommitted statements included;
    [requests] logs the inputs sent to the embedding service. *)
Record world : Type := World { disk : db; conn : db; requests : list str }.

Definition M (A : Type) : Type := world → world * (exn + A).

Definition ret {A} (a : A) : M A := λ w, (w, inr a).
Definition raise {A} (e : exn) : M A := λ w, (w, inl e).
Definition bind {A B} (m : M A) (k : A → M B) : M B :=
  λ w, match m w with
       | (w', inr a) => k a w'
       | (w', inl e) => (w', inl e)
       end.

#[global] Instance M_ret : MRet M := @ret.
#[global] Instance M_bind : MBind M := λ A B k m, bind m k.

(** [for x in l: body(x)] *)
Fixpoint for_ {A} (l : list A) (body : A → M unit) : M unit :=
  match l with
  | [] => mret ()
  | x :: l' => body x ;; for_ l' body
  end.

(** [sqlite3.connect(DB_FILE)], [conn.commit()], [conn.close()]: closing
    drops what was not committed. *)
Definition connect : M unit := λ w, (World (disk w) (disk w) (requests w), inr ()).
Definition commit : M unit := λ w, (World (conn w) (conn w) (requests w), inr ()).
Definition close : M unit := λ w, (World (disk w) (disk w) (requests w), inr ()).

Definition modify_conn (f : db → db) : M unit :=
  λ w, (World (disk w) (f (conn w)) (requests w), inr ()).

(** What [cursor.execute] can bind.  An integer parameter must fit the
    64-bit signed INTEGER of SQLite, a text parameter must encode to
    UTF-8, which a lone surrogate (U+D800 to U+DFFF) does not. *)
Definition int64_ok (z : Z) : bool := ((- 2 ^ 63 <=? z) && (z <? 2 ^ 63))%Z.
Definition is_surrogate (c : char) : bool := ((55296 <=? c) && (c <=? 57343))%N.
Definition utf8_ok (s : str) : bool := forallb (λ c, negb (is_surrogate c)) s.

Definition bind_int (z : Z) : M unit :=
  if int64_ok z then mret () else raise OverflowError.
Definition bind_text (s : str) : M unit :=
  if utf8_ok s then mret () else raise UnicodeEncodeError.

(** The INSERT of [process_discourse].  The parameters are bound in the
    order of the tuple, and the first one that cannot be bound raises.
    The values come from [json.load], which yields integers of any size
    and strings with lone surrogates.  The index is not checked: it is
    below the length of a string. *)
Definition insert_discourse (p : Discourse.t) (idx : nat) (c : str)
    (e : option bytes) : M unit :=
  bind_int (Discourse.post_id p) ;;
  bind_int (Discourse.topic_id p) ;;
  bind_text (Discourse.topic_title p) ;;
  bind_int (Discourse.post_number p) ;;
  bind_text (Discourse.author p) ;;
  bind_text (Discourse.created_at p) ;;
  bind_int (Discourse.likes p) ;;
  bind_text c ;;
  bind_text (Discourse.url p) ;;
  modify_conn (λ d, Db (sql_insert (discourse_chunks d) p idx c e) (markdown_chunks d)).

(** The INSERT of [process_markdown].  Its text parameters are parts of
    a file read with [encoding='utf-8'], which holds no lone surrogate,
    so every parameter can be bound. *)
Definition insert_markdown (p : Markdown.t) (idx : nat) (c : str)
    (e : option bytes) : M unit :=
  modify_conn (λ d, Db (discourse_chunks d) (sql_insert (markdown_chunks d) p idx c e)).

Definition db_update_embedding (tbl : table_name) (e : bytes) (i : N) (d : db) : db :=
  match tbl with
  | discourse_chunks_name =>
      Db (sql_update_embedding (discourse_chunks d) e i).1 (markdown_chunks d)
  | markdown_chunks_name =>
      Db (discourse_chunks d) (sql_update_embedding (markdown_chunks d) e i).1
  end.

Definition db_select_unembedded (tbl : table_name) (d : db) : list (N * str) :=
  match tbl with
  | discourse_chunks_name => sql_select_unembedded (discourse_chunks d)
  | markdown_chunks_name => sql_select_unembedded (markdown_chunks d)
  end.

(** [cursor.execute(f"UPDATE {table} SET embedding=? WHERE id=?", ...)] *)
Definition update_embedding (tbl : table_name) (e : bytes) (i : N) : M unit :=
  modify_conn (db_update_embedding tbl e i).

(** [cursor.execute("SELECT ... WHERE embedding IS NULL"); cursor.fetchall()] *)
Definition fetch_unembedded (tbl : table_name) : M (list (N * str)) :=
  λ w, (w, inr (db_select_unembedded tbl (conn w))).

(** ** Ingestion *)

Definition discourse_of_post (post : Post.t) : Discourse.t :=
  Discourse.mk (Post.post_id post) (Post.topic_id post) (Post.topic_title post)
               (Post.post_number post) (Post.author post) (Post.created_at post)
               (Post.like_count post) (Post.url post).

(** The body of the loop of [process_discourse]. *)
Definition ingest_post (post : Post.t) : M unit :=
  let clean_text := strip (Post.content post) in
  let chunks := create_chunks clean_text in
  for_ (enumerate chunks) (λ '(idx, chunk),
    insert_discourse (discourse_of_post post) idx chunk None).

(** [process_discourse]; [posts] is the content of [DISCOURSE_FILE]. *)
Definition process_discourse (posts : list Post.t) : M unit :=
  connect ;;
  for_ posts ingest_post ;;
  commit ;;
  close.

(** [re.search(FIELD, meta).group(1)] *)
Definition search_group1 (key meta : str) : M str :=
  match search_field key meta with
  | Some g => mret g
  | None => raise AttributeError
  end.

(** The frontmatter step of [process_markdown]: the three metadata
    fields and the content that is left to chunk. *)
Definition extract_frontmatter (content : str) : M (str * str * str * str) :=
  match match_frontmatter content with
  | Some (meta, e) =>
      let content := slice_from content e in
      title ← search_group1 (lit "title") meta;
      url ← search_group1 (lit "original_url") meta;
      downloaded_at ← search_group1 (lit "downloaded_at") meta;
      mret (title, url, downloaded_at, content)
  | None => mret ([], [], [], content)
  end.

(** The body of the loop of [process_markdown], past the file-name test. *)
Definition ingest_document (content : str) : M unit :=
  '(title, url, downloaded_at, content) ← extract_frontmatter content;
  let chunks := create_chunks content in
  for_ (enumerate chunks) (λ '(idx, chunk),
    insert_markdown (Markdown.mk title url downloaded_at) idx chunk None).

(** [process_markdown]; [files] lists [MARKDOWN_DIR], each name with the
    content of its file. *)
Definition process_markdown (files : list (str * str)) : M unit :=
  connect ;;
  for_ files (λ '(filename, content),
    if negb (endswith (lit ".md") filename) then mret ()
    else ingest_document content) ;;
  commit ;;
  close.

(** ** Embedding backfill *)

Section backfill.
(** The embedding service: given the inputs of the requests made so far
    and the input of this one, either the encoded vector,
    [json.dumps(data["data"][0]["embedding"]).encode()], or [None] when
    the request or the decoding of its answer raises. *)
Variable service : list str → str → option bytes.

Definition request_embedding (input : str) : M bytes :=
  λ w, let w' := World (disk w) (conn w) (requests w ++ [input]) in
       match service (requests w) input with
       | Some e => (w', inr e)
       | None => (w', inl EmbeddingRequestError)
       end.

(** The body of the inner loop of [generate_embeddings]. *)
Definition embed_row (tbl : table_name) (r : N * str) : M unit :=
  let '(id, content) := r in
  embedding ← request_embedding content;
  update_embedding tbl embedding id ;;
  commit.

Definition generate_embeddings : M unit :=
  connect ;;
  discourse ← fetch_unembedded discourse_chunks_name;
  markdown ← fetch_unembedded markdown_chunks_name;
  for_ [(discourse, discourse_chunks_name); (markdown, markdown_chunks_name)]
    (λ '(dataset, tbl), for_ dataset (embed_row tbl)) ;;
  close.
End backfill.

(** ** Specification vocabulary *)

(** A text is normalised when it has no newline and no white space at
    either end. *)
Definition normalized (t : str) : Prop :=
  (NL ∉ t) ∧ (∀ c, head t = Some c → isspace c = false)
           ∧ (∀ c, last t = Some c → isspace c = false).

(** What the field pattern of [key] matches, said without the matcher:
    somewhere in [meta], at the start of a line or not, stand the key, a
    colon, a space, and a quoted value that stays on one line.  (So
    [subtitle: "S"] makes [title] occur.) *)
Definition field_occurs (key meta : str) : Prop :=
  ∃ pre v post, meta = pre ++ field_open key ++ v ++ [QUOTE] ++ post ∧ (NL ∉ v).

(** The primary key holds: no two rows of a table share an [id]. *)
Definition unique_ids {P} (t : table P) : Prop := NoDup (id <$> rows t).

(** Row [r'] is row [r] with, at most, another embedding. *)
Definition same_chunk {P} (r r' : row P) : Prop :=
  id r' = id r ∧ prov r' = prov r ∧ chunk_index r' = chunk_index r
  ∧ content r' = content r.

(** Every embedded row of [t] is still there in [t'], at its position,
    and still embedded. *)
Definition keeps_embeddings_table {P} (t t' : table P) : Prop :=
  ∀ k r, rows t !! k = Some r → embedding r ≠ None →
    ∃ r', rows t' !! k = Some r' ∧ same_chunk r r' ∧ embedding r' ≠ None.

Definition keeps_embeddings (d d' : db) : Prop :=
  keeps_embeddings_table (discourse_chunks d) (discourse_chunks d')
  ∧ keeps_embeddings_table (markdown_chunks d) (markdown_chunks d').

(** A Hoare triple for [M]: from a world in [Pre], a normal return lands
    in [Post] and a raised exception in [Exc]. *)
Definition hoare {A} (Pre : world → Prop) (m : M A)
    (Post : A → world → Prop) (Exc : exn → world → Prop) : Prop :=
  ∀ w, Pre w →
    match m w with
    | (w', inr a) => Post a w'
    | (w', inl e) => Exc e w'
    end.

(** ** Further vocabulary of the proofs, and sample data *)

(** The number of start offsets [range(0, n, step)] yields. *)
Definition range_count (n step : nat) : nat := (n + step - 1) / step.

(** The window that starts at the [k]-th offset. *)
Definition window (size step : nat) (t : str) (k : nat) : str :=
  take size (drop (k * step) t).

(** Putting the chunks back together: the first chunk, then every later
    chunk without its first [overlap] characters, [chunk[overlap:]]. *)
Definition reassemble (overlap : nat) (chunks : list str) : str :=
  match chunks with
  | [] => []
  | c0 :: rest => c0 ++ concat ((λ c, slice_from c overlap) <$> rest)
  end.

(** A text whose characters are all different from their neighbours, to
    run the chunker on: the alphabet, repeated. *)
Definition sample_text (n : nat) : str := (λ k, N.of_nat (65 + k mod 26)) <$> seq 0 n.

(** An invariant holds after the computation, however it ends. *)
Definition invariant {A} (I : world → Prop) (m : M A) : Prop :=
  hoare I m (λ _, I) (λ _, I).

(** The invariant that shows an embedding is never cleared: both the
    file and the connection keep the embeddings the file [d0] had. *)
Definition keeps_from (d0 : db) (w : world) : Prop :=
  keeps_embeddings d0 (disk w) ∧ keeps_embeddings d0 (conn w).

(** The table a name stands for. *)
Definition prov_of (tbl : table_name) : Type :=
  match tbl with
  | discourse_chunks_name => Discourse.t
  | markdown_chunks_name => Markdown.t
  end.

Definition get_table (tbl : table_name) (d : db) : table (prov_of tbl) :=
  match tbl with
  | discourse_chunks_name => discourse_chunks d
  | markdown_chunks_name => markdown_chunks d
  end.

(** The largest key table [t] has ever held. *)
Definition next_base {P} (t : table P) : N := N.max (seq_no t) (max_id t).

(** The table after the inserts of one parent, one per indexed chunk. *)
Definition insert_chunks {P} (t : table P) (p : P) (l : list (nat * str)) : table P :=
  foldl (λ t ic, sql_insert t p ic.1 ic.2 None) t l.

(** A freshly created database, and a world that holds it. *)
Definition empty_table {P} : table P := Table [] 0.
Definition empty_db : db := Db empty_table empty_table.
Definition empty_world : world := World empty_db empty_db [].

(** A post whose content is [n] letters. *)
Definition sample_post (n : nat) : Post.t :=
  Post.mk 42 7 (lit "Thread") 1 (lit "alice") (lit "2025-01-01") 3
          (lit "https://forum.example/t/7/1") (sample_text n).

(** A store with three document chunks, the second one embedded. *)
Definition sample_db : db :=
  Db empty_table
     (Table [Row 1 (Markdown.mk (lit "Doc") (lit "http://y") (lit "2024-01-01")) 0 (lit "first") None;
             Row 2 (Markdown.mk (lit "Doc") (lit "http://y") (lit "2024-01-01")) 1 (lit "second")
                   (Some [Byte.x5b; Byte.x5d]);
             Row 3 (Markdown.mk (lit "Doc") (lit "http://y") (lit "2024-01-01")) 2 (lit "third") None]
            3).

Definition sample_world : world := World sample_db sample_db [].

(** Every row of table [tbl] that still lacks an embedding has its key
    in [ids]. *)
Definition unembedded_within (tbl : table_name) (ids : list N) (d : db) : Prop :=
  ∀ i, i ∈ (db_select_unembedded tbl d).*1 → i ∈ ids.

(** The invariant of the two loops of [generate_embeddings]: everything
    is committed, and the rows still to embed are among the keys that
    remain to be visited. *)
Definition backfill_inv (ids_d ids_m : list N) (w : world) : Prop :=
  conn w = disk w
  ∧ unembedded_within discourse_chunks_name ids_d (conn w)
  ∧ unembedded_within markdown_chunks_name ids_m (conn w).

(** A service that answers every request with the same vector. *)
Definition sample_service : list str → str → option bytes :=
  λ _ _, Some [Byte.x5b; Byte.x30; Byte.x2e; Byte.x35; Byte.x5d].

(** What the frontmatter pattern matches, said without the matcher: the
    content opens with three dashes and a newline, and later holds a
    newline, three dashes and a newline.  (So a document that opens with
    two lines of three dashes, with nothing between them, is not
    delimited by these two lines.) *)
Definition delimited (content : str) : Prop :=
  ∃ meta body, content = FRONTMATTER_OPEN ++ meta ++ FRONTMATTER_CLOSE ++ body.

(** The block the frontmatter pattern captures: what stands between
    the opening and the first such closing. *)
Definition delimited_block (content meta : str) : Prop :=
  (∃ body, content = FRONTMATTER_OPEN ++ meta ++ FRONTMATTER_CLOSE ++ body)
  ∧ ∀ meta' body', content = FRONTMATTER_OPEN ++ meta' ++ FRONTMATTER_CLOSE ++ body' →
      length meta ≤ length meta'.

(** A document whose header has a title and nothing else, and a document
    without a header. *)
Definition sample_doc_title_only : str :=
  lit "---" ++ [NL] ++ lit "title: " ++ [QUOTE] ++ lit "X" ++ [QUOTE] ++ [NL]
  ++ lit "---" ++ [NL] ++ lit "body".

Definition sample_doc_no_header : str := lit "just a body".

(** ** Vocabulary of the further properties *)

(** What a row stores besides its key. *)
Definition row_data {P} (r : row P) : P * nat * str * option bytes :=
  (prov r, chunk_index r, content r, embedding r).

(** The rows one post contributes, without their keys. *)
Definition post_chunks (post : Post.t) : list (Discourse.t * nat * str * option bytes) :=
  imap (λ i c, (discourse_of_post post, i, c, None)) (create_chunks (Post.content post)).

(** The primary key holds in both tables. *)
Definition unique_db (d : db) : Prop :=
  unique_ids (discourse_chunks d) ∧ unique_ids (markdown_chunks d).

(** A directory entry that [process_markdown] reads. *)
Definition is_md (file : str * str) : Prop := endswith (lit ".md") file.1 = true.

(** A document on which the frontmatter pattern matches and, for one of
    the three keys, the field pattern matches nowhere in the block. *)
Definition field_unmatched (content : str) : Prop :=
  ∃ meta, delimited_block content meta
    ∧ (¬ field_occurs (lit "title") meta ∨ ¬ field_occurs (lit "original_url") meta
       ∨ ¬ field_occurs (lit "downloaded_at") meta).

(** Two files, the first without a header, the second with a header that
    has a title only. *)
Definition sample_files : list (str * str) :=
  [(lit "a.md", sample_doc_no_header); (lit "b.md", sample_doc_title_only)].

(** Both the file and the connection satisfy [Φ]. *)
Definition both (Φ : db → Prop) (w : world) : Prop := Φ (disk w) ∧ Φ (conn w).

(** A value that can stand between the quotes of a header field. *)
Definition plain (v : str) : Prop := (QUOTE ∉ v) ∧ (NL ∉ v).

(** A header field as the patterns of [process_markdown] expect it, and
    a document that opens with the three fields, one per line. *)
Definition field_line (key v : str) : str := field_open key ++ v ++ [QUOTE].

Definition render_header (title url downloaded_at : str) : str :=
  field_line (lit "title") title ++ [NL]
  ++ field_line (lit "original_url") url ++ [NL]
  ++ field_line (lit "downloaded_at") downloaded_at.

Definition render_document (title url downloaded_at body : str) : str :=
  FRONTMATTER_OPEN ++ render_header title url downloaded_at ++ FRONTMATTER_CLOSE ++ body.

(** The rows a run of the backfill fetches from a database: the
    unembedded rows of [discourse_chunks], then those of
    [markdown_chunks]. *)
Definition fetched (d : db) : list (N * str) :=
  db_select_unembedded discourse_chunks_name d
  ++ db_select_unembedded markdown_chunks_name d.

(** A service that answers the first request and fails on the second. *)
Definition flaky_service : list str → str → option bytes :=
  λ rq _, match rq with [] => Some [Byte.x5b; Byte.x5d] | _ => None end.

(** Every row that [d0] holds with an embedding is in [d], unchanged and
    at the same position. *)
Definition kept (d0 d : db) : Prop :=
  ∀ tbl k r, rows (get_table tbl d0) !! k = Some r → embedding r ≠ None →
    rows (get_table tbl d) !! k = Some r.

(** ** The database file and [main] *)

(** What [DB_FILE] holds before [create_db]: each table may be missing
    (a file that does not exist yet has neither). *)
Record db_file : Type := DbFile {
  file_discourse : option (table Discourse.t);
  file_markdown : option (table Markdown.t) }.

(** [CREATE TABLE IF NOT EXISTS]: an existing table is left alone, a
    missing one is created empty. *)
Definition create_table_if_not_exists {P} (o : option (table P)) : table P :=
  match o with
  | Some t => t
  | None => Table [] 0
  end.

(** [create_db] *)
Definition create_db (f : db_file) : db :=
  Db (create_table_if_not_exists (file_discourse f))
     (create_table_if_not_exists (file_markdown f)).

(** [main]: the four steps in sequence, from the file [f], the posts of
    [DISCOURSE_FILE] and the listing of [MARKDOWN_DIR]; no request has
    been made when it starts. *)
Definition main (service : list str → str → option bytes) (posts : list Post.t)
    (files : list (str * str)) (f : db_file) : world * (exn + ()) :=
  let d := create_db f in
  (process_discourse posts ;; process_markdown files ;; generate_embeddings service)
    (World d d []).

(** The key and content of every row of the store, table by table. *)
Definition all_rows (d : db) : list (N * str) :=
  ((λ r, (id r, content r)) <$> rows (discourse_chunks d))
  ++ ((λ r, (id r, content r)) <$> rows (markdown_chunks d)).

(** No row of the store has an embedding. *)
Definition all_unembedded (d : db) : Prop :=
  Forall (λ r, embedding r = None) (rows (discourse_chunks d))
  ∧ Forall (λ r, embedding r = None) (rows (markdown_chunks d)).

(** A file that does not exist yet. *)
Definition no_file : db_file := DbFile None None.

(** The primary key holds and no row has an embedding. *)
Definition unique_unembedded (d : db) : Prop := unique_db d ∧ all_unembedded d.

(** The invariants of the two loops of [generate_embeddings] that follow
    the requests: [Ld] and [Lm] are the rows fetched from the two tables,
    [rq0] the requests made before the run, [rest] the rows still to
    visit. *)
Definition trace_discourse (Ld Lm : list (N * str)) (rq0 : list str)
    (rest : list (N * str)) (w : world) : Prop :=
  conn w = disk w ∧ unique_db (disk w)
  ∧ db_select_unembedded discourse_chunks_name (disk w) = rest
  ∧ db_select_unembedded markdown_chunks_name (disk w) = Lm
  ∧ ∃ done, Ld = done ++ rest ∧ requests w = rq0 ++ done.*2.

Definition trace_markdown (Ld Lm : list (N * str)) (rq0 : list str)
    (rest : list (N * str)) (w : world) : Prop :=
  conn w = disk w ∧ unique_db (disk w)
  ∧ db_select_unembedded discourse_chunks_name (disk w) = []
  ∧ db_select_unembedded markdown_chunks_name (disk w) = rest
  ∧ ∃ done, Lm = done ++ rest ∧ requests w = rq0 ++ Ld.*2 ++ done.*2.

(** What holds when a request fails: [x] is the row it was made for. *)
Definition trace_failed (Ld Lm : list (N * str)) (rq0 : list str)
    (e : exn) (w : world) : Prop :=
  e = EmbeddingRequestError
  ∧ ∃ done x rest, Ld ++ Lm = done ++ x :: rest
      ∧ fetched (disk w) = x :: rest
      ∧ requests w = rq0 ++ done.*2 ++ [x.2].

(** The discourse table after the loop of [process_discourse]. *)
Definition insert_posts (t : table Discourse.t) (posts : list Post.t) : table Discourse.t :=
  foldl (λ t post, insert_chunks t (discourse_of_post post)
                     (enumerate (create_chunks (strip (Post.content post))))) t posts.

(** The body of the loop of [process_markdown]. *)
Definition markdown_body (file : str * str) : M unit :=
  let '(filename, content) := file in
  if negb (endswith (lit ".md") filename) then mret () else ingest_document content.

(** ** Posts that SQLite can store *)

(** The provenance columns of a row can all be bound. *)
Definition bindable_meta (p : Discourse.t) : bool :=
  int64_ok (Discourse.post_id p) && int64_ok (Discourse.topic_id p)
  && utf8_ok (Discourse.topic_title p) && int64_ok (Discourse.post_number p)
  && utf8_ok (Discourse.author p) && utf8_ok (Discourse.created_at p)
  && int64_ok (Discourse.likes p) && utf8_ok (Discourse.url p).

(** Every field of a post can be bound: its integers fit 64 bits and its
    strings, the content included, hold no lone surrogate. *)
Definition bindable_post (post : Post.t) : bool :=
  bindable_meta (discourse_of_post post) && utf8_ok (Post.content post).

Definition bindable (posts : list Post.t) : Prop :=
  Forall (λ post, bindable_post post = true) posts.

(** A post whose [post_id] does not fit 64 bits, and one whose content
    holds a lone surrogate. *)
Definition sample_post_big_id : Post.t :=
  Post.mk (2 ^ 63) 7 (lit "Thread") 1 (lit "alice") (lit "2025-01-01") 3
          (lit "https://forum.example/t/7/1") (lit "hello").
Definition sample_post_surrogate : Post.t :=
  Post.mk 43 7 (lit "Thread") 2 (lit "bob") (lit "2025-01-02") 0
          (lit "https://forum.example/t/7/2") [97; 55296; 98]%N.

(** ** The header as the specification words it *)

(** The lines of a text. *)
Fixpoint split_lines (s : str) : list str :=
  match s with
  | [] => [[]]
  | c :: s' =>
      if (c =? NL)%N then [] :: split_lines s'
      else match split_lines s' with
           | l :: ls => (c :: l) :: ls
           | [] => [[c]]
           end
  end.

(** The lines up to the first line of three dashes. *)
Fixpoint lines_to_close (ls : list str) : option (list str) :=
  match ls with
  | [] => None
  | l :: ls' =>
      if bool_decide (l = lit "---") then Some [] else cons l <$> lines_to_close ls'
  end.

(** The specification speaks of a header block that prefixes the file
    content: the file opens with a line of three dashes, and the block
    is the lines, possibly none, up to the next line of three dashes. *)
Definition spec_header_block (content : str) : option (list str) :=
  match split_lines content with
  | first :: rest =>
      if bool_decide (first = lit "---") then lines_to_close rest else None
  | [] => None
  end.

(** The specification speaks of a header with recognised keys, each with
    a quoted string value: the field [key] is there when a line of the
    block opens with the key, a colon, a space and a quote, and holds a
    closing quote. *)
Definition spec_field_declared (key : str) (block : list str) : bool :=
  existsb (λ line, startswith (field_open key) line
                   && bool_decide (QUOTE ∈ drop (length (field_open key)) line)) block.

(** A document whose header has a subtitle but no title, and a document
    whose header block is empty. *)
Definition sample_doc_subtitle : str :=
  lit "---" ++ [NL]
  ++ lit "subtitle: " ++ [QUOTE] ++ lit "S" ++ [QUOTE] ++ [NL]
  ++ lit "original_url: " ++ [QUOTE] ++ lit "http://y" ++ [QUOTE] ++ [NL]
  ++ lit "downloaded_at: " ++ [QUOTE] ++ lit "2024-01-01" ++ [QUOTE] ++ [NL]
  ++ lit "---" ++ [NL] ++ lit "body".
Definition sample_doc_empty_block : str :=
  lit "---" ++ [NL] ++ lit "---" ++ [NL] ++ lit "body".

(** ** Facts about strings *)

Lemma isspace_replace_nl_char c : isspace (replace_nl_char c) = isspace c.
Proof.
  unfold replace_nl_char, NL, SPACE.
  destruct (N.eqb_spec c 10) as [->|]; reflexivity.
Qed.

Lemma replace_nl_char_idemp c : replace_nl_char (replace_nl_char c) = replace_nl_char c.
Proof.
  unfold replace_nl_char, NL, SPACE.
  destruct (N.eqb_spec c 10) as [->|Hc]; [reflexivity|].
  destruct (N.eqb_spec c 10); congruence.
Qed.

Section strip_map.
Variable f : char → char.
Hypothesis f_space : ∀ c, isspace (f c) = isspace c.

Lemma lstrip_fmap s : lstrip (f <$> s) = f <$> lstrip s.
Proof.
  induction s as [|c s IH]; [reflexivity|].
  cbn [fmap list_fmap lstrip]. rewrite f_space.
  destruct (isspace c); [exact IH | reflexivity].
Qed.

Lemma rstrip_fmap s : rstrip (f <$> s) = f <$> rstrip s.
Proof.
  induction s as [|c s IH]; [reflexivity|].
  cbn [fmap list_fmap rstrip]. fold (f <$> s). rewrite IH, f_space.
  destruct (rstrip s); cbn; [destruct (isspace c)|]; reflexivity.
Qed.

Lemma strip_fmap s : strip (f <$> s) = f <$> strip s.
Proof. unfold strip. by rewrite lstrip_fmap, rstrip_fmap. Qed.
End strip_map.

Lemma lstrip_head_nonspace s c : head (lstrip s) = Some c → isspace c = false.
Proof.
  induction s as [|d s IH]; cbn; [discriminate|].
  destruct (isspace d) eqn:Hd; [exact IH|].
  cbn. intros [= ->]. exact Hd.
Qed.

Lemma lstrip_id s : (∀ c, head s = Some c → isspace c = false) → lstrip s = s.
Proof.
  destruct s as [|c s]; [reflexivity|].
  intros H. cbn. by rewrite (H c eq_refl).
Qed.

Lemma rstrip_cons_nonspace c s : isspace c = false → rstrip (c :: s) = c :: rstrip s.
Proof. intros Hc. cbn. rewrite Hc. by destruct (rstrip s). Qed.

Lemma rstrip_head s c :
  head s = Some c → isspace c = false → head (rstrip s) = Some c.
Proof.
  destruct s as [|d s]; cbn [head]; [discriminate|].
  intros [= ->] Hc. by rewrite rstrip_cons_nonspace.
Qed.

Lemma rstrip_idemp s : rstrip (rstrip s) = rstrip s.
Proof.
  induction s as [|c s IH]; [reflexivity|].
  cbn [rstrip]. destruct (rstrip s) as [|d r] eqn:Hr.
  - destruct (isspace c) eqn:Hc; [reflexivity|]. cbn. by rewrite Hc.
  - cbn [rstrip]. cbn [rstrip] in IH. by rewrite IH.
Qed.

Lemma rstrip_last_nonspace s c : last (rstrip s) = Some c → isspace c = false.
Proof.
  induction s as [|d s IH]; cbn [rstrip]; [discriminate|].
  destruct (rstrip s) as [|e r] eqn:Hr.
  - destruct (isspace d) eqn:Hd; cbn; [discriminate|]. by intros [= <-].
  - intros H. apply IH. exact H.
Qed.

Lemma rstrip_id s : (∀ c, last s = Some c → isspace c = false) → rstrip s = s.
Proof.
  induction s as [|d s IH]; [reflexivity|].
  intros H. cbn [rstrip]. destruct s as [|e s].
  - cbn. by rewrite (H d eq_refl).
  - rewrite IH; [reflexivity|]. intros c Hc. apply H. exact Hc.
Qed.

Lemma rstrip_head_nonspace s c :
  (∀ d, head s = Some d → isspace d = false) →
  head (rstrip s) = Some c → isspace c = false.
Proof.
  destruct s as [|d s]; [discriminate|].
  intros H. rewrite rstrip_cons_nonspace by (by apply H).
  cbn. intros [= <-]. by apply H.
Qed.

Lemma strip_head_nonspace s c : head (strip s) = Some c → isspace c = false.
Proof. apply rstrip_head_nonspace. intros d. apply lstrip_head_nonspace. Qed.

Lemma strip_last_nonspace s c : last (strip s) = Some c → isspace c = false.
Proof. apply rstrip_last_nonspace. Qed.

Lemma strip_id s :
  (∀ c, head s = Some c → isspace c = false) →
  (∀ c, last s = Some c → isspace c = false) →
  strip s = s.
Proof. intros Hh Hl. unfold strip. rewrite lstrip_id by done. by apply rstrip_id. Qed.

Lemma strip_idemp s : strip (strip s) = strip s.
Proof. apply strip_id; [apply strip_head_nonspace | apply strip_last_nonspace]. Qed.

Lemma replace_nl_idemp s : replace_nl (replace_nl s) = replace_nl s.
Proof.
  unfold replace_nl. rewrite <- list_fmap_compose.
  apply list_fmap_ext. intros _ c _. apply replace_nl_char_idemp.
Qed.

Lemma strip_replace_nl s : strip (replace_nl s) = replace_nl (strip s).
Proof. apply strip_fmap, isspace_replace_nl_char. Qed.

Lemma normalize_idemp text : normalize (normalize text) = normalize text.
Proof.
  unfold normalize.
  by rewrite (strip_replace_nl (strip _)), strip_idemp, <- strip_replace_nl, replace_nl_idemp.
Qed.

Lemma normalize_strip text : normalize (strip text) = normalize text.
Proof. unfold normalize. by rewrite !strip_replace_nl, strip_idemp. Qed.

(** ** Facts about the chunker *)

Lemma chunk_params :
  0 < CHUNK_SIZE - CHUNK_OVERLAP ∧ CHUNK_OVERLAP ≤ CHUNK_SIZE
  ∧ CHUNK_SIZE ≤ 2 * (CHUNK_SIZE - CHUNK_OVERLAP).
Proof. unfold CHUNK_SIZE, CHUNK_OVERLAP. lia. Qed.

Lemma foldl_snoc_fmap {A B} (f : A → B) (l : list A) (acc : list B) :
  foldl (λ chunks i, chunks ++ [f i]) acc l = acc ++ (f <$> l).
Proof.
  revert acc. induction l as [|x l IH]; intros acc; cbn [foldl].
  - by rewrite app_nil_r.
  - rewrite IH, <- app_assoc. reflexivity.
Qed.

Lemma range_count_spec n step :
  0 < step → 0 < n →
  0 < range_count n step
  ∧ (range_count n step - 1) * step < n
  ∧ n ≤ range_count n step * step.
Proof.
  intros Hs Hn. unfold range_count.
  pose proof (Nat.div_mod (n + step - 1) step ltac:(lia)) as Hd.
  pose proof (Nat.mod_upper_bound (n + step - 1) step ltac:(lia)) as Hm.
  set (q := (n + step - 1) / step) in *.
  set (r := (n + step - 1) mod step) in *.
  assert (0 < q) by (destruct q; [nia | lia]).
  repeat split; [lia | nia | nia].
Qed.

Lemma range_0 n step :
  range 0 n step = (λ k, k * step) <$> seq 0 (range_count n step).
Proof. unfold range, range_count. by rewrite Nat.sub_0_r. Qed.

Lemma create_chunks_windows text :
  create_chunks text =
    let t := normalize text in
    if length t <=? CHUNK_SIZE then [t]
    else window CHUNK_SIZE (CHUNK_SIZE - CHUNK_OVERLAP) t
           <$> seq 0 (range_count (length t) (CHUNK_SIZE - CHUNK_OVERLAP)).
Proof.
  unfold create_chunks. cbv zeta.
  destruct (length (normalize text) <=? CHUNK_SIZE); [reflexivity|].
  rewrite foldl_snoc_fmap, app_nil_l, range_0, <- list_fmap_compose.
  apply list_fmap_ext. intros _ k _. unfold compose, slice, window.
  by rewrite Nat.add_comm, Nat.add_sub.
Qed.

Lemma create_chunks_short text :
  length (normalize text) ≤ CHUNK_SIZE → create_chunks text = [normalize text].
Proof.
  intros H. rewrite create_chunks_windows. cbv zeta.
  by rewrite (proj2 (Nat.leb_le _ _) H).
Qed.

Lemma create_chunks_long text :
  CHUNK_SIZE < length (normalize text) →
  create_chunks text =
    window CHUNK_SIZE (CHUNK_SIZE - CHUNK_OVERLAP) (normalize text)
      <$> seq 0 (range_count (length (normalize text)) (CHUNK_SIZE - CHUNK_OVERLAP)).
Proof.
  intros H. rewrite create_chunks_windows. cbv zeta.
  by rewrite (proj2 (Nat.leb_gt _ _) H).
Qed.

Lemma length_create_chunks_long text :
  CHUNK_SIZE < length (normalize text) →
  length (create_chunks text)
  = range_count (length (normalize text)) (CHUNK_SIZE - CHUNK_OVERLAP).
Proof. intros H. by rewrite create_chunks_long, length_fmap, length_seq. Qed.

Lemma create_chunks_lookup text k c :
  CHUNK_SIZE < length (normalize text) →
  create_chunks text !! k = Some c →
  c = window CHUNK_SIZE (CHUNK_SIZE - CHUNK_OVERLAP) (normalize text) k
  ∧ k < range_count (length (normalize text)) (CHUNK_SIZE - CHUNK_OVERLAP).
Proof.
  intros H. rewrite create_chunks_long by done.
  rewrite list_lookup_fmap. destruct (seq _ _ !! k) as [k'|] eqn:Hk; [|discriminate].
  apply lookup_seq in Hk as [-> Hk]. cbn. by intros [= <-].
Qed.

Section windows.
Variables (size overlap : nat) (t : str).
Hypothesis overlap_le : overlap ≤ size.
Let step := size - overlap.

Lemma window_tail k :
  slice_from (window size step t (S k)) overlap
  = take step (drop (k * step + size) t).
Proof.
  unfold slice_from, window.
  rewrite skipn_firstn_comm, drop_drop. fold step.
  f_equal. f_equal. subst step. lia.
Qed.

Lemma window_tails j :
  window size step t 0
    ++ concat ((λ c, slice_from c overlap) <$> (window size step t <$> seq 1 j))
  = take (j * step + size) t.
Proof.
  induction j as [|j IH].
  - cbn [seq fmap list_fmap concat]. rewrite app_nil_r. reflexivity.
  - rewrite seq_S, !fmap_app, concat_app, app_assoc, IH.
    cbn [fmap list_fmap concat]. rewrite app_nil_r.
    change (1 + j) with (S j). rewrite window_tail, take_take_drop.
    f_equal. lia.
Qed.

Lemma reassemble_windows j :
  reassemble overlap (window size step t <$> seq 0 (S j))
  = take (j * step + size) t.
Proof. cbn [seq fmap list_fmap reassemble]. apply window_tails. Qed.

Lemma reassemble_all :
  0 < step → 0 < length t →
  reassemble overlap (window size step t <$> seq 0 (range_count (length t) step)) = t.
Proof.
  intros Hs Ht. destruct (range_count_spec (length t) step Hs Ht) as (Hm & _ & Hn).
  destruct (range_count (length t) step) as [|j]; [lia|].
  rewrite reassemble_windows. apply take_ge.
  subst step. nia.
Qed.

Lemma window_overlap k :
  k * step + size ≤ length t →
  slice_last (window size step t k) overlap
  = take overlap (window size step t (S k)).
Proof.
  intros Hk. unfold slice_last, window.
  rewrite length_take, length_drop, Nat.min_l by lia.
  rewrite skipn_firstn_comm, drop_drop, take_take.
  rewrite Nat.min_l by lia. f_equal; [lia|]. f_equal. subst step. lia.
Qed.
End windows.

(** ** Facts about normalised texts *)

Lemma replace_nl_id t : NL ∉ t → replace_nl t = t.
Proof.
  intros H. unfold replace_nl. rewrite <- (list_fmap_id t) at 2.
  apply list_fmap_ext. intros _ c Hc%list_elem_of_lookup_2.
  unfold replace_nl_char. destruct (N.eqb_spec c NL) as [->|]; done.
Qed.

Lemma normalize_normalized t : normalized t → normalize t = t.
Proof.
  intros (Hnl & Hh & Hl). unfold normalize.
  rewrite replace_nl_id by done. by apply strip_id.
Qed.

Lemma NL_not_in_replace_nl t : NL ∉ replace_nl t.
Proof.
  unfold replace_nl. intros (c & Hc & _)%list_elem_of_fmap.
  unfold replace_nl_char in Hc. destruct (N.eqb_spec c NL); [discriminate|congruence].
Qed.

Lemma normalized_normalize text : normalized (normalize text).
Proof.
  unfold normalize. rewrite strip_replace_nl. split; [apply NL_not_in_replace_nl|].
  rewrite <- strip_replace_nl.
  split; [apply strip_head_nonspace | apply strip_last_nonspace].
Qed.

Lemma create_chunks_nonempty text : create_chunks text ≠ [].
Proof.
  destruct (Nat.le_gt_cases (length (normalize text)) CHUNK_SIZE) as [H|H].
  - by rewrite create_chunks_short.
  - intros Hnil%(f_equal length). rewrite length_create_chunks_long in Hnil by done.
    destruct chunk_params as (Hs & _).
    destruct (range_count_spec (length (normalize text)) _ Hs ltac:(lia)) as (Hpos & _).
    rewrite Hnil in Hpos. cbn in Hpos. lia.
Qed.

(** ** The chunker: claims *)

(** C7: for every normalised text [t] no longer than the chunk size,
    [create_chunks t] is the one-element sequence [[t]]; the result of
    the chunker is never empty, and the empty text yields one empty
    chunk. *)
Theorem create_chunks_short_text (t : str) :
  normalized t → length t ≤ CHUNK_SIZE →
  create_chunks t = [t]
  ∧ (∀ text, create_chunks text ≠ [])
  ∧ create_chunks [] = [[]].
Proof.
  intros Hn Hlen. split; [|split].
  - rewrite create_chunks_short; rewrite normalize_normalized; done.
  - apply create_chunks_nonempty.
  - reflexivity.
Qed.

Lemma create_chunks_short_text_witness :
  create_chunks (lit "hello world") = [lit "hello world"]
  ∧ (∀ text, create_chunks text ≠ [])
  ∧ create_chunks [] = [[]].
Proof.
  apply (create_chunks_short_text (lit "hello world")).
  - split; [|split].
    + apply (bool_decide_unpack _). vm_compute. exact I.
    + intros c [= <-]. reflexivity.
    + intros c [= <-]. reflexivity.
  - vm_compute. lia.
Defined.

(** C8: chunking 1500 letters A gives exactly two chunks, the characters
    at offsets [0,1000) and those at offsets [800,1500); the second is 700
    characters long. *)
Theorem create_chunks_1500 :
  let t := replicate 1500 65%N in
  create_chunks t = [slice t 0 1000; slice t 800 1500]
  ∧ length (slice t 0 1000) = 1000
  ∧ length (slice t 800 1500) = 700.
Proof. vm_compute. repeat split. Qed.

(** C10: the chunker normalises white space itself: chunking a text and
    chunking its normalisation (newlines replaced by spaces, then
    stripped) give the same chunks. *)
Theorem create_chunks_normalizes (t : str) :
  create_chunks t = create_chunks (strip (replace_nl t)).
Proof.
  fold (normalize t). unfold create_chunks. by rewrite normalize_idemp.
Qed.

(** C4: when the normalised text is longer than the chunk size, the first
    chunk followed by every later chunk without its first [CHUNK_OVERLAP]
    characters is the normalised text. *)
Theorem create_chunks_reassemble (text : str) :
  CHUNK_SIZE < length (normalize text) →
  reassemble CHUNK_OVERLAP (create_chunks text) = normalize text.
Proof.
  intros Hlen. rewrite create_chunks_long by done.
  destruct chunk_params as (Hs & Ho & _).
  apply reassemble_all; [done | done | lia].
Qed.

Lemma create_chunks_reassemble_witness :
  reassemble CHUNK_OVERLAP (create_chunks (sample_text 2500))
  = normalize (sample_text 2500).
Proof. apply (create_chunks_reassemble (sample_text 2500)). vm_compute. lia. Defined.

(** C5: when the normalised text is longer than the chunk size, the last
    [CHUNK_OVERLAP] characters of chunk [i] are the first [CHUNK_OVERLAP]
    characters of chunk [i+1], for every pair of consecutive chunks but
    the last pair. *)
Theorem create_chunks_overlap (text : str) (i : nat) (c c' : str) :
  CHUNK_SIZE < length (normalize text) →
  create_chunks text !! i = Some c →
  create_chunks text !! (i + 1) = Some c' →
  i + 2 < length (create_chunks text) →
  slice_last c CHUNK_OVERLAP = slice c' 0 CHUNK_OVERLAP.
Proof.
  intros Hlen Hc Hc' Hi.
  rewrite length_create_chunks_long in Hi by done.
  apply create_chunks_lookup in Hc as [-> _]; [|done].
  apply create_chunks_lookup in Hc' as [-> _]; [|done].
  destruct chunk_params as (Hs & Ho & H2).
  destruct (range_count_spec (length (normalize text)) _ Hs ltac:(lia)) as (_ & Hm & _).
  unfold slice. rewrite Nat.sub_0_r, drop_0, Nat.add_1_r.
  apply window_overlap; [done|]. nia.
Qed.

Lemma create_chunks_overlap_witness :
  slice_last (slice (sample_text 2500) 0 1000) CHUNK_OVERLAP
  = slice (slice (sample_text 2500) 800 1800) 0 CHUNK_OVERLAP.
Proof.
  apply (create_chunks_overlap (sample_text 2500) 0).
  - vm_compute. lia.
  - vm_compute. reflexivity.
  - vm_compute. reflexivity.
  - vm_compute. lia.
Defined.

(** ** A small program logic for [M] *)

Lemma hoare_ret {A} (a : A) (Q : A → world → Prop) E :
  hoare (Q a) (mret a) Q E.
Proof. intros w Hw. exact Hw. Qed.

Lemma hoare_raise {A} e (Q : A → world → Prop) (E : exn → world → Prop) :
  hoare (E e) (raise e) Q E.
Proof. intros w Hw. exact Hw. Qed.

Lemma hoare_bind {A B} P (m : M A) (k : A → M B) Q R E :
  hoare P m Q E → (∀ a, hoare (Q a) (k a) R E) → hoare P (m ≫= k) R E.
Proof.
  intros Hm Hk w Hw. unfold mbind, M_bind, bind.
  specialize (Hm w Hw). destruct (m w) as [w' [e|a]]; [exact Hm|].
  by apply Hk.
Qed.

Lemma hoare_conseq {A} (P P' : world → Prop) (m : M A) (Q Q' : A → world → Prop)
    (E E' : exn → world → Prop) :
  hoare P' m Q' E' →
  (∀ w, P w → P' w) → (∀ a w, Q' a w → Q a w) → (∀ e w, E' e w → E e w) →
  hoare P m Q E.
Proof.
  intros Hm HP HQ HE w Hw. specialize (Hm w (HP w Hw)).
  destruct (m w) as [w' [e|a]]; auto.
Qed.

(** The loop rule: the invariant is indexed by what is left of the list. *)
Lemma hoare_for {A} (I : list A → world → Prop) (body : A → M unit) E (l : list A) :
  (∀ x rest, hoare (I (x :: rest)) (body x) (λ _, I rest) E) →
  hoare (I l) (for_ l body) (λ _, I []) E.
Proof.
  intros Hbody. induction l as [|x l IH]; cbn [for_].
  - apply hoare_ret with (Q := λ _, I []).
  - eapply hoare_bind; [apply Hbody|]. intros ?. exact IH.
Qed.

Lemma invariant_bind {A B} I (m : M A) (k : A → M B) :
  invariant I m → (∀ a, invariant I (k a)) → invariant I (m ≫= k).
Proof. intros Hm Hk. eapply hoare_bind; [exact Hm|exact Hk]. Qed.

Lemma invariant_ret {A} I (a : A) : invariant I (mret a).
Proof. intros w Hw. exact Hw. Qed.

Lemma invariant_raise {A} I e : invariant I (raise (A:=A) e).
Proof. intros w Hw. exact Hw. Qed.

Lemma invariant_for {A} I (body : A → M unit) l :
  (∀ x, invariant I (body x)) → invariant I (for_ l body).
Proof.
  intros Hbody. apply (hoare_for (λ _, I)). intros x ?. apply Hbody.
Qed.

Lemma invariant_run {A} I (m : M A) w : invariant I m → I w → I (m w).1.
Proof. intros Hm Hw. specialize (Hm w Hw). by destruct (m w) as [w' [e|a]]. Qed.

Lemma bind_int_invariant I z : invariant I (bind_int z).
Proof. unfold bind_int. destruct (int64_ok z); [apply invariant_ret|apply invariant_raise]. Qed.

Lemma bind_text_invariant I s : invariant I (bind_text s).
Proof. unfold bind_text. destruct (utf8_ok s); [apply invariant_ret|apply invariant_raise]. Qed.

Lemma insert_discourse_invariant I p idx c e :
  invariant I (modify_conn (λ d, Db (sql_insert (discourse_chunks d) p idx c e)
                                    (markdown_chunks d))) →
  invariant I (insert_discourse p idx c e).
Proof.
  intros H. unfold insert_discourse.
  repeat (apply invariant_bind;
          [first [apply bind_int_invariant | apply bind_text_invariant]|intros ?]).
  exact H.
Qed.

(** An INSERT whose parameters can be bound is the plain insertion. *)
Lemma insert_discourse_bindable p idx c e w :
  bindable_meta p = true → utf8_ok c = true →
  insert_discourse p idx c e w
  = modify_conn (λ d, Db (sql_insert (discourse_chunks d) p idx c e) (markdown_chunks d)) w.
Proof.
  unfold bindable_meta. rewrite !andb_true_iff.
  intros (((((((H1 & H2) & H3) & H4) & H5) & H6) & H7) & H8) Hc.
  unfold insert_discourse, bind_int, bind_text, mbind, M_bind, bind.
  by rewrite H1, H2, H3, H4, H5, H6, H7, H8, Hc.
Qed.

(** An INSERT with a parameter that cannot be bound raises, and changes
    nothing. *)
Lemma insert_discourse_unbindable p idx c e w :
  bindable_meta p && utf8_ok c = false →
  ∃ x, insert_discourse p idx c e w = (w, inl x)
       ∧ (x = OverflowError ∨ x = UnicodeEncodeError).
Proof.
  unfold bindable_meta, insert_discourse, bind_int, bind_text, mbind, M_bind, bind.
  destruct (int64_ok (Discourse.post_id p)); [|eauto].
  destruct (int64_ok (Discourse.topic_id p)); [|eauto].
  destruct (utf8_ok (Discourse.topic_title p)); [|eauto].
  destruct (int64_ok (Discourse.post_number p)); [|eauto].
  destruct (utf8_ok (Discourse.author p)); [|eauto].
  destruct (utf8_ok (Discourse.created_at p)); [|eauto].
  destruct (int64_ok (Discourse.likes p)); [|eauto].
  destruct (utf8_ok c); [|eauto].
  destruct (utf8_ok (Discourse.url p)); [|eauto].
  discriminate.
Qed.

(** ** Facts about the store *)

Lemma same_chunk_refl {P} (r : row P) : same_chunk r r.
Proof. by repeat split. Qed.

Lemma same_chunk_trans {P} (r1 r2 r3 : row P) :
  same_chunk r1 r2 → same_chunk r2 r3 → same_chunk r1 r3.
Proof. unfold same_chunk. intros (?&?&?&?) (?&?&?&?). repeat split; congruence. Qed.

Lemma keeps_embeddings_table_refl {P} (t : table P) : keeps_embeddings_table t t.
Proof. intros k r Hk Hr. exists r. auto using same_chunk_refl. Qed.

Lemma keeps_embeddings_table_trans {P} (t1 t2 t3 : table P) :
  keeps_embeddings_table t1 t2 → keeps_embeddings_table t2 t3 →
  keeps_embeddings_table t1 t3.
Proof.
  intros H12 H23 k r Hk Hr.
  destruct (H12 k r Hk Hr) as (r2 & Hk2 & Hs2 & Hr2).
  destruct (H23 k r2 Hk2 Hr2) as (r3 & Hk3 & Hs3 & Hr3).
  exists r3. eauto using same_chunk_trans.
Qed.

Lemma keeps_embeddings_refl d : keeps_embeddings d d.
Proof. split; apply keeps_embeddings_table_refl. Qed.

Lemma keeps_embeddings_trans d1 d2 d3 :
  keeps_embeddings d1 d2 → keeps_embeddings d2 d3 → keeps_embeddings d1 d3.
Proof. intros [] []. split; eapply keeps_embeddings_table_trans; eauto. Qed.

Lemma sql_insert_keeps {P} (t : table P) p idx c e :
  keeps_embeddings_table t (sql_insert t p idx c e).
Proof.
  intros k r Hk Hr. exists r. split; [|auto using same_chunk_refl].
  cbn. by apply lookup_app_l_Some.
Qed.

Lemma sql_update_embedding_lookup {P} (t : table P) e i k :
  rows (sql_update_embedding t e i).1 !! k
  = (λ r, if (id r =? i)%N then set_row_embedding e r else r) <$> rows t !! k.
Proof. cbn. apply list_lookup_fmap. Qed.

Lemma sql_update_embedding_keeps {P} (t : table P) e i :
  keeps_embeddings_table t (sql_update_embedding t e i).1.
Proof.
  intros k r Hk Hr. rewrite sql_update_embedding_lookup, Hk. cbn.
  destruct (id r =? i)%N.
  - exists (set_row_embedding e r). by repeat split.
  - exists r. auto using same_chunk_refl.
Qed.

Lemma db_update_embedding_keeps tbl e i d :
  keeps_embeddings d (db_update_embedding tbl e i d).
Proof.
  destruct tbl; split; cbn [db_update_embedding discourse_chunks markdown_chunks];
    first [apply keeps_embeddings_table_refl | apply sql_update_embedding_keeps].
Qed.

Lemma connect_keeps d0 : invariant (keeps_from d0) connect.
Proof. intros w [Hd Hc]. by split. Qed.

Lemma commit_keeps d0 : invariant (keeps_from d0) commit.
Proof. intros w [Hd Hc]. by split. Qed.

Lemma close_keeps d0 : invariant (keeps_from d0) close.
Proof. intros w [Hd Hc]. by split. Qed.

Lemma modify_conn_keeps d0 f :
  (∀ d, keeps_embeddings d (f d)) → invariant (keeps_from d0) (modify_conn f).
Proof.
  intros Hf w [Hd Hc]. split; [exact Hd|].
  cbn. eapply keeps_embeddings_trans; [exact Hc|apply Hf].
Qed.

Lemma insert_discourse_keeps d0 p idx c e :
  invariant (keeps_from d0) (insert_discourse p idx c e).
Proof.
  apply insert_discourse_invariant.
  apply modify_conn_keeps. intros d. split; cbn [discourse_chunks markdown_chunks];
    first [apply keeps_embeddings_table_refl | apply sql_insert_keeps].
Qed.

Lemma insert_markdown_keeps d0 p idx c e :
  invariant (keeps_from d0) (insert_markdown p idx c e).
Proof.
  apply modify_conn_keeps. intros d. split; cbn [discourse_chunks markdown_chunks];
    first [apply keeps_embeddings_table_refl | apply sql_insert_keeps].
Qed.

Lemma update_embedding_keeps d0 tbl e i :
  invariant (keeps_from d0) (update_embedding tbl e i).
Proof. apply modify_conn_keeps. intros d. apply db_update_embedding_keeps. Qed.

Lemma fetch_unembedded_keeps d0 tbl : invariant (keeps_from d0) (fetch_unembedded tbl).
Proof. intros w Hw. exact Hw. Qed.

Lemma request_embedding_keeps d0 service input :
  invariant (keeps_from d0) (request_embedding service input).
Proof.
  intros w [Hd Hc]. unfold request_embedding.
  destruct (service (requests w) input); by split.
Qed.

Lemma search_group1_keeps d0 key meta : invariant (keeps_from d0) (search_group1 key meta).
Proof.
  unfold search_group1. destruct (search_field key meta);
    [apply invariant_ret | apply invariant_raise].
Qed.

Lemma ingest_post_keeps d0 post : invariant (keeps_from d0) (ingest_post post).
Proof.
  unfold ingest_post. apply invariant_for. intros [idx chunk].
  apply insert_discourse_keeps.
Qed.

Lemma extract_frontmatter_keeps d0 content :
  invariant (keeps_from d0) (extract_frontmatter content).
Proof.
  unfold extract_frontmatter. destruct (match_frontmatter content) as [[meta e]|].
  - repeat (apply invariant_bind; [apply search_group1_keeps|intros ?]).
    apply invariant_ret.
  - apply invariant_ret.
Qed.

Lemma ingest_document_keeps d0 content : invariant (keeps_from d0) (ingest_document content).
Proof.
  unfold ingest_document. apply invariant_bind; [apply extract_frontmatter_keeps|].
  intros [[[title url] downloaded_at] content']. apply invariant_for.
  intros [idx chunk]. apply insert_markdown_keeps.
Qed.

Lemma process_discourse_keeps d0 posts : invariant (keeps_from d0) (process_discourse posts).
Proof.
  unfold process_discourse.
  apply invariant_bind; [apply connect_keeps|intros ?].
  apply invariant_bind; [apply invariant_for, ingest_post_keeps|intros ?].
  apply invariant_bind; [apply commit_keeps|intros ?]. apply close_keeps.
Qed.

Lemma process_markdown_keeps d0 files : invariant (keeps_from d0) (process_markdown files).
Proof.
  unfold process_markdown.
  apply invariant_bind; [apply connect_keeps|intros ?].
  apply invariant_bind; [|intros ?].
  { apply invariant_for. intros [filename content].
    destruct (negb _); [apply invariant_ret | apply ingest_document_keeps]. }
  apply invariant_bind; [apply commit_keeps|intros ?]. apply close_keeps.
Qed.

Lemma embed_row_keeps d0 service tbl r : invariant (keeps_from d0) (embed_row service tbl r).
Proof.
  destruct r as [i c]. unfold embed_row.
  apply invariant_bind; [apply request_embedding_keeps|intros e].
  apply invariant_bind; [apply update_embedding_keeps|intros ?]. apply commit_keeps.
Qed.

Lemma generate_embeddings_keeps d0 service :
  invariant (keeps_from d0) (generate_embeddings service).
Proof.
  unfold generate_embeddings.
  apply invariant_bind; [apply connect_keeps|intros ?].
  apply invariant_bind; [apply fetch_unembedded_keeps|intros discourse].
  apply invariant_bind; [apply fetch_unembedded_keeps|intros markdown].
  apply invariant_bind; [|intros ?; apply close_keeps].
  apply invariant_for. intros [dataset tbl]. apply invariant_for.
  intros r. apply embed_row_keeps.
Qed.

(** Every function opens its own connection, so what the caller's world
    held in [conn] does not matter. *)
Lemma connect_first {A} (m : M A) w :
  (connect ;; m) w = (connect ;; m) (World (disk w) (disk w) (requests w)).
Proof. reflexivity. Qed.

Lemma keeps_from_disk w : keeps_from (disk w) (World (disk w) (disk w) (requests w)).
Proof. split; apply keeps_embeddings_refl. Qed.

Lemma get_table_update tbl e i d :
  get_table tbl (db_update_embedding tbl e i d)
  = (sql_update_embedding (get_table tbl d) e i).1.
Proof. by destruct tbl. Qed.

Lemma get_table_update_other tbl tbl' e i d :
  tbl' ≠ tbl → get_table tbl' (db_update_embedding tbl e i d) = get_table tbl' d.
Proof. by destruct tbl, tbl'. Qed.

Lemma db_select_unembedded_get tbl d :
  db_select_unembedded tbl d = sql_select_unembedded (get_table tbl d).
Proof. by destruct tbl. Qed.

(** With a primary key, the rows an update rewrites are the one row
    [list_find] stops at, if there is one. *)
Lemma fmap_update_no_match {P} (g : row P → row P) i (l : list (row P)) :
  i ∉ id <$> l → (λ r, if (id r =? i)%N then g r else r) <$> l = l.
Proof.
  intros Hi. rewrite <- (list_fmap_id l) at 2. apply list_fmap_ext.
  intros k r Hr. destruct (N.eqb_spec (id r) i) as [Heq|]; [|done].
  destruct Hi. apply list_elem_of_fmap. exists r. split; [done|].
  by eapply list_elem_of_lookup_2.
Qed.

Lemma fmap_update_unique {P} (g : row P → row P) i (l : list (row P)) :
  NoDup (id <$> l) →
  (λ r, if (id r =? i)%N then g r else r) <$> l
  = match list_find (λ r, id r = i) l with
    | Some (k, r) => <[k := g r]> l
    | None => l
    end.
Proof.
  induction l as [|r l IH]; [reflexivity|].
  rewrite fmap_cons, NoDup_cons. intros [Hr Hl].
  cbn [fmap list_fmap list_find]. fold (@fmap list _ _ _ (λ r, if (id r =? i)%N then g r else r) l).
  destruct (decide (id r = i)) as [Heq|Hne].
  - rewrite (proj2 (N.eqb_eq _ _) Heq). cbn. f_equal.
    apply fmap_update_no_match. by rewrite <- Heq.
  - rewrite (proj2 (N.eqb_neq _ _) Hne), (IH Hl).
    destruct (list_find _ l) as [[k r']|]; reflexivity.
Qed.

Lemma filter_id_length {P} i (l : list (row P)) :
  NoDup (id <$> l) →
  length (filter (λ r, id r = i) l)
  = match list_find (λ r, id r = i) l with Some _ => 1 | None => 0 end.
Proof.
  induction l as [|r l IH]; [reflexivity|].
  rewrite fmap_cons, NoDup_cons. intros [Hr Hl].
  rewrite filter_cons. cbn [list_find].
  destruct (decide (id r = i)) as [Heq|Hne].
  - cbn. f_equal. rewrite (IH Hl).
    destruct (list_find _ l) as [[k r']|] eqn:Hf; [|done].
    apply list_find_Some in Hf as (Hk & Hi & _). destruct Hr.
    apply list_elem_of_fmap. exists r'. split; [congruence|].
    by eapply list_elem_of_lookup_2.
  - rewrite (IH Hl). by destruct (list_find _ l) as [[k r']|].
Qed.

(** ** Inserting the chunks of one parent *)

Lemma max_id_snoc {P} (l : list (row P)) r s :
  max_id (Table (l ++ [r]) s) = N.max (max_id (Table l s)) (id r).
Proof.
  unfold max_id. cbn [rows]. induction l as [|r' l IH]; cbn; [lia|].
  cbn in IH. rewrite IH. lia.
Qed.

Lemma next_base_insert {P} (t : table P) p idx c e :
  next_base (sql_insert t p idx c e) = (next_base t + 1)%N.
Proof.
  unfold next_base, sql_insert. cbn [seq_no]. rewrite max_id_snoc. cbn [id].
  unfold max_id at 2. cbn [rows]. fold (max_id t). lia.
Qed.

Lemma rows_insert_chunks {P} (t : table P) p k chunks :
  rows (insert_chunks t p (imap (λ i x, (k + i, x)) chunks))
  = rows t ++ imap (λ i c, Row (next_base t + 1 + N.of_nat i)%N p (k + i) c None) chunks.
Proof.
  revert t k. induction chunks as [|c chunks IH]; intros t k.
  - cbn. by rewrite app_nil_r.
  - rewrite !imap_cons. unfold insert_chunks. cbn [foldl fst snd].
    fold (insert_chunks (sql_insert t p (k + 0) c None) p
            (imap ((λ i x, (k + i, x)) ∘ S) chunks)).
    rewrite (imap_ext _ (λ i x, (S k + i, x))) by (intros; cbn; f_equal; lia).
    rewrite IH, next_base_insert. cbn [sql_insert rows].
    rewrite <- app_assoc. cbn [app]. f_equal. f_equal.
    + f_equal. unfold next_base. lia.
    + apply imap_ext. intros i x _. cbn. f_equal; lia.
Qed.

Lemma for_ext {A} (l : list A) (body body' : A → M unit) w :
  (∀ x w, body x w = body' x w) → for_ l body w = for_ l body' w.
Proof.
  intros H. revert w. induction l as [|x l IH]; intros w; [reflexivity|].
  cbn [for_]. unfold mbind, M_bind, bind. rewrite H.
  destruct (body' x w) as [w' [e|[]]]; [reflexivity|apply IH].
Qed.

Lemma for_modify_conn {A} (l : list A) (f : A → db → db) w :
  for_ l (λ x, modify_conn (f x)) w
  = modify_conn (λ d, foldl (λ d x, f x d) d l) w.
Proof.
  revert w. induction l as [|x l IH]; intros [dk cn rq]; [reflexivity|].
  cbn [for_]. unfold mbind, M_bind, bind. cbn [modify_conn disk conn requests].
  rewrite IH. reflexivity.
Qed.

Lemma foldl_insert_discourse p l d :
  foldl (λ d (ic : nat * str),
           Db (sql_insert (discourse_chunks d) p ic.1 ic.2 None) (markdown_chunks d)) d l
  = Db (insert_chunks (discourse_chunks d) p l) (markdown_chunks d).
Proof.
  revert d. induction l as [|ic l IH]; intros d; [by destruct d|].
  cbn [foldl]. rewrite IH. reflexivity.
Qed.

Lemma foldl_insert_markdown p l d :
  foldl (λ d (ic : nat * str),
           Db (discourse_chunks d) (sql_insert (markdown_chunks d) p ic.1 ic.2 None)) d l
  = Db (discourse_chunks d) (insert_chunks (markdown_chunks d) p l).
Proof.
  revert d. induction l as [|ic l IH]; intros d; [by destruct d|].
  cbn [foldl]. rewrite IH. reflexivity.
Qed.

Lemma for_ext_in {A} (l : list A) (body body' : A → M unit) w :
  (∀ x w, x ∈ l → body x w = body' x w) → for_ l body w = for_ l body' w.
Proof.
  revert w. induction l as [|x l IH]; intros w H; [reflexivity|].
  cbn [for_]. unfold mbind, M_bind, bind. rewrite H by left.
  destruct (body' x w) as [w' [e|[]]]; [reflexivity|].
  apply IH. intros y w1 Hy. apply H. by right.
Qed.

Lemma utf8_ok_spec s : utf8_ok s = true ↔ ∀ c, c ∈ s → is_surrogate c = false.
Proof.
  unfold utf8_ok. induction s as [|a s IH]; cbn [forallb].
  - split; [by intros _ c ?%elem_of_nil | done].
  - rewrite andb_true_iff, negb_true_iff, IH. split.
    + intros [Ha Hs] c [->|Hc]%elem_of_cons; auto.
    + intros H. split; [apply H; left | intros c Hc; apply H; by right].
Qed.

Lemma lstrip_subseteq s : lstrip s ⊆ s.
Proof.
  induction s as [|c s IH]; cbn [lstrip]; [done|].
  destruct (isspace c); [|done]. intros x Hx. right. by apply IH.
Qed.

Lemma rstrip_subseteq s : rstrip s ⊆ s.
Proof.
  induction s as [|c s IH]; cbn [rstrip]; [done|].
  destruct (rstrip s) as [|d r].
  - destruct (isspace c); [by intros x ?%elem_of_nil|].
    intros x ->%list_elem_of_singleton. left.
  - intros x [->|Hx]%elem_of_cons; [left|right; by apply IH].
Qed.

Lemma strip_subseteq s : strip s ⊆ s.
Proof. unfold strip. etrans; [apply rstrip_subseteq | apply lstrip_subseteq]. Qed.

Lemma elem_of_normalize c text : c ∈ normalize text → c ∈ text ∨ c = SPACE.
Proof.
  unfold normalize. intros Hc%strip_subseteq. unfold replace_nl in Hc.
  apply list_elem_of_fmap in Hc as (x & -> & Hx). unfold replace_nl_char.
  destruct (x =? NL)%N; auto.
Qed.

Lemma create_chunks_subseteq text chunk :
  chunk ∈ create_chunks text → chunk ⊆ normalize text.
Proof.
  rewrite create_chunks_windows. cbv zeta.
  destruct (length (normalize text) <=? CHUNK_SIZE).
  - by intros ->%list_elem_of_singleton.
  - intros (k & -> & _)%list_elem_of_fmap. unfold window.
    etrans; [apply subseteq_take | apply subseteq_drop].
Qed.

(** The chunks of a text without lone surrogates have none either. *)
Lemma create_chunks_utf8_ok text :
  utf8_ok text = true → Forall (λ chunk, utf8_ok chunk = true) (create_chunks text).
Proof.
  rewrite utf8_ok_spec. intros Htext. apply Forall_forall. intros chunk Hchunk.
  apply utf8_ok_spec. intros c Hc.
  apply (create_chunks_subseteq _ _ Hchunk), elem_of_normalize in Hc as [Hc| ->]; auto.
Qed.

Lemma utf8_ok_strip text : utf8_ok text = true → utf8_ok (strip text) = true.
Proof. rewrite !utf8_ok_spec. intros H c Hc%strip_subseteq. by apply H. Qed.

Lemma Forall_enumerate {A} (Q : A → Prop) (l : list A) :
  Forall Q l → Forall (λ ic, Q ic.2) (enumerate l).
Proof.
  rewrite !Forall_forall. intros H [i x] [k Hk]%list_elem_of_lookup.
  unfold enumerate in Hk. rewrite list_lookup_imap in Hk.
  destruct (l !! k) as [y|] eqn:Hy; [|discriminate]. cbn in Hk. injection Hk as <- <-.
  cbn. apply H. by eapply list_elem_of_lookup_2.
Qed.

Lemma for_insert_discourse p l w :
  bindable_meta p = true → Forall (λ ic, utf8_ok ic.2 = true) l →
  for_ l (λ '(idx, chunk), insert_discourse p idx chunk None) w
  = (World (disk w)
           (Db (insert_chunks (discourse_chunks (conn w)) p l) (markdown_chunks (conn w)))
           (requests w), inr ()).
Proof.
  intros Hp Hl.
  rewrite (for_ext_in _ _ (λ ic, modify_conn (λ d,
             Db (sql_insert (discourse_chunks d) p ic.1 ic.2 None) (markdown_chunks d)))).
  - rewrite for_modify_conn. unfold modify_conn. by rewrite foldl_insert_discourse.
  - intros [idx chunk] w1 Hin. rewrite Forall_forall in Hl.
    apply insert_discourse_bindable; [done|]. exact (Hl _ Hin).
Qed.

Lemma for_insert_markdown p l w :
  for_ l (λ '(idx, chunk), insert_markdown p idx chunk None) w
  = (World (disk w)
           (Db (discourse_chunks (conn w)) (insert_chunks (markdown_chunks (conn w)) p l))
           (requests w), inr ()).
Proof.
  rewrite (for_ext _ _ (λ ic, modify_conn (λ d,
             Db (discourse_chunks d) (sql_insert (markdown_chunks d) p ic.1 ic.2 None))))
    by (by intros []).
  rewrite for_modify_conn. unfold modify_conn. by rewrite foldl_insert_markdown.
Qed.

Lemma rows_insert_enumerate {P} (t : table P) p chunks :
  rows (insert_chunks t p (enumerate chunks))
  = rows t ++ imap (λ i c, Row (next_base t + 1 + N.of_nat i)%N p i c None) chunks.
Proof. exact (rows_insert_chunks t p 0 chunks). Qed.

Lemma ingest_post_run post w :
  bindable_post post = true →
  ingest_post post w
  = (World (disk w)
       (Db (insert_chunks (discourse_chunks (conn w)) (discourse_of_post post)
              (enumerate (create_chunks (strip (Post.content post)))))
           (markdown_chunks (conn w)))
       (requests w), inr ()).
Proof.
  unfold bindable_post. intros [Hp Hc]%andb_true_iff.
  unfold ingest_post. apply for_insert_discourse; [done|].
  apply (Forall_enumerate (λ chunk, utf8_ok chunk = true)).
  by apply create_chunks_utf8_ok, utf8_ok_strip.
Qed.

Lemma process_discourse_one post w :
  bindable_post post = true →
  process_discourse [post] w
  = (let d := Db (insert_chunks (discourse_chunks (disk w)) (discourse_of_post post)
                    (enumerate (create_chunks (strip (Post.content post)))))
                 (markdown_chunks (disk w)) in
     World d d (requests w), inr ()).
Proof.
  intros Hb. unfold process_discourse. cbn [for_]. unfold mbind, M_bind, bind.
  cbn [connect]. rewrite ingest_post_run by done. reflexivity.
Qed.

(** ** The store and ingestion: claims *)

(** C1, as the code has it: a post that SQLite can store (integer
    fields within 64 bits, no lone surrogate in a string) and whose
    normalised content is 2500 characters long yields exactly 4 chunk
    rows, with [chunk_index] 0, 1, 2, 3, all carrying the post's
    [post_id] and a null embedding; their contents are the windows that
    start at 0, 800, 1600 and 2400. *)
Theorem process_discourse_2500 (post : Post.t) (w : world) :
  bindable_post post = true →
  length (normalize (Post.content post)) = 2500 →
  ∃ w' new,
    process_discourse [post] w = (w', inr ())
    ∧ rows (discourse_chunks (disk w')) = rows (discourse_chunks (disk w)) ++ new
    ∧ chunk_index <$> new = [0; 1; 2; 3]
    ∧ (λ r, Discourse.post_id (prov r)) <$> new = replicate 4 (Post.post_id post)
    ∧ content <$> new
      = (let t := normalize (Post.content post) in
         [slice t 0 1000; slice t 800 1800; slice t 1600 2600; slice t 2400 3400])
    ∧ embedding <$> new = replicate 4 None.
Proof.
  intros Hb Hlen. rewrite process_discourse_one by done. cbv zeta.
  eexists _, _. split; [reflexivity|]. cbn [disk discourse_chunks].
  rewrite rows_insert_enumerate. split; [reflexivity|].
  rewrite create_chunks_long by (rewrite normalize_strip, Hlen; unfold CHUNK_SIZE; lia).
  rewrite normalize_strip, Hlen.
  change (range_count 2500 (CHUNK_SIZE - CHUNK_OVERLAP)) with 4.
  cbn [seq fmap list_fmap imap]. unfold compose, window, slice.
  repeat split.
Qed.

Lemma process_discourse_2500_witness :
  ∃ w' new,
    process_discourse [sample_post 2500] empty_world = (w', inr ())
    ∧ rows (discourse_chunks (disk w')) = rows (discourse_chunks (disk empty_world)) ++ new
    ∧ chunk_index <$> new = [0; 1; 2; 3]
    ∧ (λ r, Discourse.post_id (prov r)) <$> new
      = replicate 4 (Post.post_id (sample_post 2500))
    ∧ content <$> new
      = (let t := normalize (Post.content (sample_post 2500)) in
         [slice t 0 1000; slice t 800 1800; slice t 1600 2600; slice t 2400 3400])
    ∧ embedding <$> new = replicate 4 None.
Proof.
  apply (process_discourse_2500 (sample_post 2500) empty_world); vm_compute; reflexivity.
Defined.

(** C1, as stated, fails: ingesting one post with 2500 letters of content
    into an empty store leaves 4 rows, not 3; the fourth has index 3. *)
Lemma process_discourse_2500_not_three_rows :
  length (normalize (Post.content (sample_post 2500))) = 2500
  ∧ (process_discourse [sample_post 2500] empty_world).2 = inr ()
  ∧ chunk_index <$> rows (discourse_chunks (disk (process_discourse [sample_post 2500] empty_world).1))
    = [0; 1; 2; 3]
  ∧ length (rows (discourse_chunks (disk (process_discourse [sample_post 2500] empty_world).1)))
    ≠ 3.
Proof. vm_compute. repeat split. discriminate. Qed.

(** C3, as the code has it: the update returns normally whether or not a
    row has the given id.  Under the primary key it rewrites the
    embedding of the one row with that id, all other rows and the other
    table being left alone, and when no row has that id it changes
    nothing; [rowcount] is 1 or 0 accordingly. *)
Theorem update_embedding_one_row (tbl : table_name) (e : bytes) (i : N) (w : world) :
  unique_ids (get_table tbl (conn w)) →
  ∃ w',
    update_embedding tbl e i w = (w', inr ())
    ∧ disk w' = disk w ∧ requests w' = requests w
    ∧ (∀ tbl', tbl' ≠ tbl → get_table tbl' (conn w') = get_table tbl' (conn w))
    ∧ seq_no (get_table tbl (conn w')) = seq_no (get_table tbl (conn w))
    ∧ rows (get_table tbl (conn w'))
      = match list_find (λ r, id r = i) (rows (get_table tbl (conn w))) with
        | Some (k, r) => <[k := set_row_embedding e r]> (rows (get_table tbl (conn w)))
        | None => rows (get_table tbl (conn w))
        end
    ∧ (sql_update_embedding (get_table tbl (conn w)) e i).2
      = match list_find (λ r, id r = i) (rows (get_table tbl (conn w))) with
        | Some _ => 1
        | None => 0
        end.
Proof.
  intros Hu. eexists. split; [reflexivity|]. cbn [disk conn requests].
  split; [reflexivity|]. split; [reflexivity|].
  split; [intros tbl' Hne; by apply get_table_update_other|].
  rewrite get_table_update. split; [reflexivity|].
  split; [apply fmap_update_unique, Hu | apply filter_id_length, Hu].
Qed.

Lemma update_embedding_one_row_witness :
  ∃ w',
    update_embedding markdown_chunks_name [Byte.x31] 3 sample_world = (w', inr ())
    ∧ embedding <$> rows (markdown_chunks (conn w'))
      = [None; Some [Byte.x5b; Byte.x5d]; Some [Byte.x31]].
Proof.
  destruct (update_embedding_one_row markdown_chunks_name [Byte.x31] 3 sample_world)
    as (w' & Hrun & _ & _ & _ & _ & Hrows & _).
  - apply (bool_decide_unpack _). vm_compute. exact I.
  - exists w'. split; [exact Hrun|].
    etrans; [exact (f_equal (fmap embedding) Hrows)|]. vm_compute. reflexivity.
Defined.

(** C3, as stated, fails: no row of [markdown_chunks] has id 7, and the
    update of row 7 returns normally, leaving the world as it was. *)
Lemma update_embedding_missing_row :
  (7%N ∉ id <$> rows (markdown_chunks (conn sample_world)))
  ∧ update_embedding markdown_chunks_name [Byte.x31] 7 sample_world = (sample_world, inr ()).
Proof. split; [apply (bool_decide_unpack _); vm_compute; exact I | reflexivity]. Qed.

(** C9: none of the three operations of the pipeline clears an embedding.
    Whatever the posts, the files and the answers of the embedding
    service, and whether the operation returns or raises, every row the
    database file held with a non-null embedding is still in the file
    afterwards, at the same position, with the same key, provenance,
    index and content, and with a non-null embedding. *)
Theorem embedding_never_cleared (service : list str → str → option bytes)
    (posts : list Post.t) (files : list (str * str)) (w : world) :
  keeps_embeddings (disk w) (disk (process_discourse posts w).1)
  ∧ keeps_embeddings (disk w) (disk (process_markdown files w).1)
  ∧ keeps_embeddings (disk w) (disk (generate_embeddings service w).1).
Proof.
  pose proof (keeps_from_disk w) as Hw.
  split; [|split].
  - change (process_discourse posts w)
      with (process_discourse posts (World (disk w) (disk w) (requests w))).
    apply (invariant_run _ _ _ (process_discourse_keeps (disk w) posts) Hw).
  - change (process_markdown files w)
      with (process_markdown files (World (disk w) (disk w) (requests w))).
    apply (invariant_run _ _ _ (process_markdown_keeps (disk w) files) Hw).
  - change (generate_embeddings service w)
      with (generate_embeddings service (World (disk w) (disk w) (requests w))).
    apply (invariant_run _ _ _ (generate_embeddings_keeps (disk w) service) Hw).
Qed.

(** ** Facts about the backfill *)

Lemma elem_of_select_unembedded {P} (t : table P) j :
  j ∈ (sql_select_unembedded t).*1 ↔ ∃ r, r ∈ rows t ∧ embedding r = None ∧ id r = j.
Proof.
  unfold sql_select_unembedded. rewrite <- list_fmap_compose, list_elem_of_fmap. split.
  - intros (r & -> & [Hn Hr]%list_elem_of_filter). by exists r.
  - intros (r & Hr & Hn & <-). exists r. split; [done|]. by apply list_elem_of_filter.
Qed.

Lemma select_unembedded_update {P} (t : table P) e i j :
  j ∈ (sql_select_unembedded (sql_update_embedding t e i).1).*1 →
  j ∈ (sql_select_unembedded t).*1 ∧ j ≠ i.
Proof.
  rewrite !elem_of_select_unembedded. intros (r' & Hr' & Hn & <-).
  cbn [sql_update_embedding fst rows] in Hr'.
  apply list_elem_of_fmap in Hr' as (r & -> & Hr).
  destruct (N.eqb_spec (id r) i) as [|Hne]; [discriminate|].
  split; [by exists r | done].
Qed.

Lemma unembedded_update tbl e i ids d :
  unembedded_within tbl (i :: ids) d →
  unembedded_within tbl ids (db_update_embedding tbl e i d).
Proof.
  unfold unembedded_within. rewrite !db_select_unembedded_get, get_table_update.
  intros H j [Hj Hne]%select_unembedded_update.
  specialize (H j Hj). apply elem_of_cons in H as [->|]; done.
Qed.

Lemma unembedded_update_any tbl tbl' e i ids d :
  unembedded_within tbl' ids d →
  unembedded_within tbl' ids (db_update_embedding tbl e i d).
Proof.
  unfold unembedded_within. intros H j Hj. apply H.
  destruct tbl, tbl'; cbn in Hj |- *;
    first [exact Hj | by apply select_unembedded_update in Hj as [Hj _]].
Qed.

Lemma unembedded_nil tbl d :
  unembedded_within tbl [] d → db_select_unembedded tbl d = [].
Proof.
  unfold unembedded_within. destruct (db_select_unembedded tbl d) as [|x l]; [done|].
  intros H. specialize (H x.1 ltac:(cbn; left)). by apply elem_of_nil in H.
Qed.

Lemma unembedded_select tbl d :
  unembedded_within tbl (db_select_unembedded tbl d).*1 d.
Proof. intros i Hi. exact Hi. Qed.

Lemma embed_row_discourse service i c rest ids_m :
  hoare (backfill_inv (i :: rest) ids_m)
        (embed_row service discourse_chunks_name (i, c))
        (λ _, backfill_inv rest ids_m) (λ _ _, True).
Proof.
  intros [dk cn rq] (Heq & Hd & Hm). cbn [conn disk] in *.
  unfold embed_row, mbind, M_bind, bind, request_embedding.
  cbn [conn disk requests]. destruct (service rq c) as [e|]; [|done].
  unfold update_embedding, modify_conn, commit. cbn [conn disk requests].
  split; [reflexivity|]. cbn [conn].
  split; [by apply unembedded_update | by apply unembedded_update_any].
Qed.

Lemma embed_row_markdown service i c rest ids_d :
  hoare (backfill_inv ids_d (i :: rest))
        (embed_row service markdown_chunks_name (i, c))
        (λ _, backfill_inv ids_d rest) (λ _ _, True).
Proof.
  intros [dk cn rq] (Heq & Hd & Hm). cbn [conn disk] in *.
  unfold embed_row, mbind, M_bind, bind, request_embedding.
  cbn [conn disk requests]. destruct (service rq c) as [e|]; [|done].
  unfold update_embedding, modify_conn, commit. cbn [conn disk requests].
  split; [reflexivity|]. cbn [conn].
  split; [by apply unembedded_update_any | by apply unembedded_update].
Qed.

Lemma generate_embeddings_post service :
  hoare (λ _, True) (generate_embeddings service)
        (λ _ w, conn w = disk w
                ∧ db_select_unembedded discourse_chunks_name (disk w) = []
                ∧ db_select_unembedded markdown_chunks_name (disk w) = [])
        (λ _ _, True).
Proof.
  unfold generate_embeddings.
  apply hoare_bind with (Q := λ _ w, conn w = disk w); [by intros w _|]. intros ?.
  apply hoare_bind with
    (Q := λ ds w, conn w = disk w ∧ ds = db_select_unembedded discourse_chunks_name (conn w));
    [by intros w Hw|]. intros discourse.
  apply hoare_bind with
    (Q := λ ms w, backfill_inv discourse.*1 ms.*1 w).
  { intros w [Hw ->]. split; [done|]. split; apply unembedded_select. }
  intros markdown. cbn [for_].
  apply hoare_bind with (Q := λ _, backfill_inv [] []).
  - apply hoare_bind with (Q := λ _, backfill_inv [] markdown.*1).
    { refine (hoare_for (λ rest, backfill_inv rest.*1 markdown.*1)
                        (embed_row service discourse_chunks_name) (λ _ _, True) discourse _).
      intros [i c] rest. apply embed_row_discourse. }
    intros ?. apply hoare_bind with (Q := λ _, backfill_inv [] []).
    { refine (hoare_for (λ rest, backfill_inv [] rest.*1)
                        (embed_row service markdown_chunks_name) (λ _ _, True) markdown _).
      intros [i c] rest. apply embed_row_markdown. }
    intros ?. apply hoare_ret with (Q := λ _, backfill_inv [] []).
  - intros ? [dk cn rq] (Heq & Hd & Hm). cbn [conn disk close] in *. subst cn.
    split; [reflexivity|]. split; by apply unembedded_nil.
Qed.

(** With nothing left to embed the backfill makes no request. *)
Lemma generate_embeddings_noop service w :
  db_select_unembedded discourse_chunks_name (disk w) = [] →
  db_select_unembedded markdown_chunks_name (disk w) = [] →
  generate_embeddings service w = (World (disk w) (disk w) (requests w), inr ()).
Proof.
  intros Hd Hm. unfold generate_embeddings, mbind, M_bind, bind, connect, fetch_unembedded.
  cbn [conn disk requests]. rewrite Hd, Hm. reflexivity.
Qed.

(** ** The backfill: claims *)

(** C6: after a run of the backfill that returns normally, a fresh
    connection fetches no unembedded row from either table, and a second
    run returns normally without one more request to the embedding
    service (and without touching the file). *)
Theorem backfill_complete_then_idle (service : list str → str → option bytes)
    (w w' : world) :
  generate_embeddings service w = (w', inr ()) →
  (∀ tbl, (connect ;; fetch_unembedded tbl) w' = (w', inr []))
  ∧ ∃ w'', generate_embeddings service w' = (w'', inr ())
           ∧ requests w'' = requests w' ∧ disk w'' = disk w'.
Proof.
  intros Hrun. pose proof (generate_embeddings_post service w I) as Hpost.
  rewrite Hrun in Hpost. destruct Hpost as (Hc & Hd & Hm).
  destruct w' as [dk cn rq]. cbn [conn disk] in *. subst cn. split.
  - intros tbl. unfold mbind, M_bind, bind, connect, fetch_unembedded.
    cbn [conn disk requests]. by destruct tbl; rewrite ?Hd, ?Hm.
  - eexists. split; [by apply generate_embeddings_noop|]. by split.
Qed.

Lemma backfill_complete_then_idle_witness :
  let w' := (generate_embeddings sample_service sample_world).1 in
  requests w' = [lit "first"; lit "third"]
  ∧ (∀ tbl, (connect ;; fetch_unembedded tbl) w' = (w', inr []))
  ∧ ∃ w'', generate_embeddings sample_service w' = (w'', inr ())
           ∧ requests w'' = requests w' ∧ disk w'' = disk w'.
Proof.
  intros w'. split; [vm_compute; reflexivity|].
  apply (backfill_complete_then_idle sample_service sample_world w').
  vm_compute. reflexivity.
Defined.

(** ** Facts about the regular expressions *)

Lemma startswith_spec p s : startswith p s = true ↔ ∃ r, s = p ++ r.
Proof.
  revert s. induction p as [|a p IH]; intros s; cbn.
  - split; [intros _; by exists s | done].
  - destruct s as [|b s].
    + split; [done | intros [r Hr]; discriminate].
    + rewrite andb_true_iff, N.eqb_eq, IH. split.
      * intros [-> [r ->]]. by exists r.
      * intros [r [= -> ->]]. split; [done | by exists r].
Qed.

Lemma startswith_app p r : startswith p (p ++ r) = true.
Proof. apply startswith_spec. by exists r. Qed.

Lemma startswith_drop p s : startswith p s = true → s = p ++ drop (length p) s.
Proof. intros [r ->]%startswith_spec. by rewrite drop_app_length. Qed.

Lemma find_None p s : find p s = None → ∀ a r, s ≠ a ++ p ++ r.
Proof.
  induction s as [|c s IH]; cbn [find].
  - destruct (startswith p []) eqn:Hp; [discriminate|]. intros _ a r Heq.
    destruct a; [|discriminate]. cbn in Heq. rewrite Heq, startswith_app in Hp. discriminate.
  - destruct (startswith p (c :: s)) eqn:Hp; [discriminate|].
    destruct (find p s) as [j|]; [discriminate|]. intros _ a r Heq.
    destruct a as [|c' a].
    + cbn in Heq. rewrite Heq, startswith_app in Hp. discriminate.
    + injection Heq as -> Heq. by apply (IH eq_refl a r).
Qed.

Lemma find_Some p s j :
  find p s = Some j →
  j ≤ length s ∧ (∃ r, drop j s = p ++ r)
  ∧ ∀ a r, s = a ++ p ++ r → j ≤ length a.
Proof.
  revert j. induction s as [|c s IH]; intros j; cbn [find].
  - destruct (startswith p []) eqn:Hp; [|discriminate]. intros [= <-].
    split; [cbn; lia|]. split; [by apply startswith_spec|]. intros; lia.
  - destruct (startswith p (c :: s)) eqn:Hp.
    + intros [= <-]. split; [lia|]. split; [by apply startswith_spec|]. intros; lia.
    + destruct (find p s) as [j'|] eqn:Hf; [|discriminate]. cbn. intros [= <-].
      destruct (IH j' eq_refl) as (Hlen & Hocc & Hmin).
      split; [cbn; lia|]. split; [exact Hocc|]. intros a r Heq.
      destruct a as [|c' a].
      * cbn in Heq. rewrite Heq, startswith_app in Hp. discriminate.
      * injection Heq as -> Heq. specialize (Hmin a r Heq). cbn. lia.
Qed.

Lemma lazy_to_quote_Some s v :
  lazy_to_quote s = Some v → (NL ∉ v) ∧ ∃ post, s = v ++ [QUOTE] ++ post.
Proof.
  revert v. induction s as [|c s IH]; intros v; cbn [lazy_to_quote]; [discriminate|].
  destruct (N.eqb_spec c QUOTE) as [->|Hq].
  - intros [= <-]. split; [apply not_elem_of_nil | by exists s].
  - destruct (N.eqb_spec c NL) as [|Hn]; [discriminate|].
    destruct (lazy_to_quote s) as [v'|]; [|discriminate]. cbn. intros [= <-].
    destruct (IH v' eq_refl) as (Hv & post & ->).
    split; [by apply not_elem_of_cons | by exists post].
Qed.

Lemma lazy_to_quote_complete v post :
  NL ∉ v → is_Some (lazy_to_quote (v ++ [QUOTE] ++ post)).
Proof.
  induction v as [|c v IH]; cbn [app lazy_to_quote].
  - intros _. by rewrite N.eqb_refl.
  - intros [Hc Hv]%not_elem_of_cons.
    destruct (N.eqb_spec c QUOTE); [done|].
    destruct (N.eqb_spec c NL); [congruence|].
    destruct (IH Hv) as [g Hg]. cbn [app] in Hg. rewrite Hg. done.
Qed.

Lemma match_field_here_Some key s v :
  match_field_here key s = Some v →
  (NL ∉ v) ∧ ∃ post, s = field_open key ++ v ++ [QUOTE] ++ post.
Proof.
  unfold match_field_here. destruct (startswith _ s) eqn:Hp; [|discriminate].
  intros (Hv & post & Hpost)%lazy_to_quote_Some. split; [done|]. exists post.
  rewrite (startswith_drop _ _ Hp) at 1. by rewrite Hpost.
Qed.

Lemma search_field_Some key s v : search_field key s = Some v → field_occurs key s.
Proof.
  induction s as [|c s IH]; cbn [search_field].
  - destruct (match_field_here key []) as [g|] eqn:Hm; [|discriminate]. intros _.
    apply match_field_here_Some in Hm as (Hg & post & Hs). by exists [], g, post.
  - destruct (match_field_here key (c :: s)) as [g|] eqn:Hm.
    + intros _. apply match_field_here_Some in Hm as (Hg & post & Hs).
      by exists [], g, post.
    + intros (pre & g & post & -> & Hg)%IH. by exists (c :: pre), g, post.
Qed.

Lemma search_field_here key s g :
  match_field_here key s = Some g → search_field key s = Some g.
Proof. intros Hg. destruct s; cbn [search_field]; by rewrite Hg. Qed.

Lemma search_field_complete key s : field_occurs key s → is_Some (search_field key s).
Proof.
  intros (pre & v & post & -> & Hv). induction pre as [|c pre IH].
  - cbn [app]. assert (is_Some (match_field_here key (field_open key ++ v ++ [QUOTE] ++ post)))
      as [g Hg].
    { unfold match_field_here. rewrite startswith_app, drop_app_length.
      by apply lazy_to_quote_complete. }
    exists g. by apply search_field_here.
  - cbn [app search_field]. by destruct (match_field_here key _).
Qed.

Lemma search_field_None key s : search_field key s = None ↔ ¬ field_occurs key s.
Proof.
  split.
  - intros Hn [g Hg]%search_field_complete. congruence.
  - intros Hn. destruct (search_field key s) as [g|] eqn:Hs; [|done].
    destruct Hn. by eapply search_field_Some.
Qed.

Lemma match_frontmatter_Some content meta e :
  match_frontmatter content = Some (meta, e) →
  delimited_block content meta
  ∧ e = length FRONTMATTER_OPEN + length meta + length FRONTMATTER_CLOSE.
Proof.
  unfold match_frontmatter. destruct (startswith _ content) eqn:Hp; [|discriminate].
  apply startswith_drop in Hp. set (rest := drop _ content) in *.
  destruct (find FRONTMATTER_CLOSE rest) as [j|] eqn:Hf; [|discriminate].
  intros [= <- <-]. destruct (find_Some _ _ _ Hf) as (Hj & [r Hr] & Hmin).
  assert (length (take j rest) = j) as Hlen by (rewrite length_take; lia).
  split; [split|by rewrite Hlen].
  - exists r. by rewrite Hp at 1; rewrite <- (take_drop j rest) at 1; rewrite Hr.
  - intros meta' body' Heq. rewrite Hlen. apply (Hmin meta' body').
    rewrite Hp in Heq at 1. by apply app_inv_head in Heq.
Qed.

Lemma match_frontmatter_None content : match_frontmatter content = None ↔ ¬ delimited content.
Proof.
  split.
  - intros Hn (meta & body & ->). unfold match_frontmatter in Hn.
    rewrite startswith_app, drop_app_length in Hn.
    destruct (find _ _) as [j|] eqn:Hf; [discriminate|].
    by apply (find_None _ _ Hf meta body).
  - intros Hn. destruct (match_frontmatter content) as [[meta e]|] eqn:Hm; [|done].
    destruct Hn. apply match_frontmatter_Some in Hm as [[[body Hb] _] _].
    by exists meta, body.
Qed.

Lemma delimited_block_match content meta :
  delimited_block content meta →
  match_frontmatter content
  = Some (meta, length FRONTMATTER_OPEN + length meta + length FRONTMATTER_CLOSE).
Proof.
  intros [[body Hb] Hmin].
  destruct (match_frontmatter content) as [[meta' e]|] eqn:Hm.
  - apply match_frontmatter_Some in Hm as [[[body' Hb'] Hmin'] ->].
    pose proof (Hmin meta' body' Hb'). pose proof (Hmin' meta body Hb).
    assert (meta' = meta) as ->; [|done].
    rewrite Hb in Hb'. apply app_inv_head in Hb'.
    apply (f_equal (take (length meta))) in Hb'.
    rewrite take_app_length in Hb'. rewrite Hb'.
    by rewrite take_app_length' by lia.
  - apply match_frontmatter_None in Hm. destruct Hm. by exists meta, body.
Qed.

(** ** The chunker: further properties *)

Lemma window_length size step t k :
  length (window size step t k) = size `min` (length t - k * step).
Proof. unfold window. by rewrite length_take, length_drop. Qed.

Lemma window_subseteq size step t k : window size step t k ⊆ t.
Proof.
  unfold window. etrans; [apply subseteq_take | apply subseteq_drop].
Qed.

(** No chunk is longer than [CHUNK_SIZE], and no chunk holds a newline. *)
Theorem create_chunks_bounded (text c : str) :
  c ∈ create_chunks text → length c ≤ CHUNK_SIZE ∧ (NL ∉ c).
Proof.
  intros Hc. pose proof (normalized_normalize text) as (Hnl & _).
  destruct (Nat.le_gt_cases (length (normalize text)) CHUNK_SIZE) as [H|H].
  - rewrite create_chunks_short in Hc by done.
    apply list_elem_of_singleton in Hc as ->. done.
  - apply list_elem_of_lookup in Hc as [k Hk].
    apply create_chunks_lookup in Hk as [-> _]; [|done]. split.
    + rewrite window_length. lia.
    + intros Hin. apply Hnl. by eapply window_subseteq.
Qed.

Lemma create_chunks_bounded_witness :
  length (slice (sample_text 2500) 1600 2600) ≤ CHUNK_SIZE
  ∧ (NL ∉ slice (sample_text 2500) 1600 2600).
Proof.
  apply (create_chunks_bounded (sample_text 2500)).
  apply (bool_decide_unpack _). vm_compute. exact I.
Defined.

(** A text longer than [CHUNK_SIZE] gives one chunk per started step of
    [CHUNK_SIZE - CHUNK_OVERLAP] characters, hence at least two. *)
Theorem create_chunks_count (text : str) :
  CHUNK_SIZE < length (normalize text) →
  2 ≤ length (create_chunks text)
  ∧ (length (create_chunks text) - 1) * (CHUNK_SIZE - CHUNK_OVERLAP)
    < length (normalize text)
  ∧ length (normalize text)
    ≤ length (create_chunks text) * (CHUNK_SIZE - CHUNK_OVERLAP).
Proof.
  intros H. rewrite length_create_chunks_long by done.
  destruct chunk_params as (Hs & Ho & _).
  destruct (range_count_spec (length (normalize text)) _ Hs ltac:(lia)) as (Hm & Hlo & Hhi).
  repeat split; [|done|done]. nia.
Qed.

Lemma create_chunks_count_witness :
  2 ≤ length (create_chunks (sample_text 2500))
  ∧ (length (create_chunks (sample_text 2500)) - 1) * (CHUNK_SIZE - CHUNK_OVERLAP)
    < length (normalize (sample_text 2500))
  ∧ length (normalize (sample_text 2500))
    ≤ length (create_chunks (sample_text 2500)) * (CHUNK_SIZE - CHUNK_OVERLAP).
Proof. apply (create_chunks_count (sample_text 2500)). vm_compute. lia. Defined.

(** In a text longer than [CHUNK_SIZE] no chunk is empty, and every
    chunk but the last two is exactly [CHUNK_SIZE] characters long. *)
Theorem create_chunks_sizes (text : str) (k : nat) (c : str) :
  CHUNK_SIZE < length (normalize text) →
  create_chunks text !! k = Some c →
  0 < length c
  ∧ (k + 2 < length (create_chunks text) → length c = CHUNK_SIZE).
Proof.
  intros H Hk. rewrite length_create_chunks_long by done.
  apply create_chunks_lookup in Hk as [-> Hk]; [|done].
  destruct chunk_params as (Hs & Ho & H2).
  destruct (range_count_spec (length (normalize text)) _ Hs ltac:(lia)) as (Hm & Hlo & Hhi).
  rewrite window_length. split; [|intros Hk2]; nia.
Qed.

Lemma create_chunks_sizes_witness :
  0 < length (slice (sample_text 2500) 800 1800)
  ∧ (1 + 2 < length (create_chunks (sample_text 2500))
     → length (slice (sample_text 2500) 800 1800) = CHUNK_SIZE).
Proof.
  apply (create_chunks_sizes (sample_text 2500) 1).
  - vm_compute. lia.
  - vm_compute. reflexivity.
Defined.

(** When the last chunk of a long text is no longer than the overlap, it
    is a suffix of the chunk before it: it repeats text that chunk
    already holds. *)
Theorem create_chunks_last_redundant (text : str) (n : nat) (prev last : str) :
  CHUNK_SIZE < length (normalize text) →
  length (create_chunks text) = S (S n) →
  create_chunks text !! n = Some prev →
  create_chunks text !! S n = Some last →
  length last ≤ CHUNK_OVERLAP →
  last `suffix_of` prev.
Proof.
  intros H Hlen Hprev Hlast Hshort.
  rewrite length_create_chunks_long in Hlen by done.
  apply create_chunks_lookup in Hprev as [-> _]; [|done].
  apply create_chunks_lookup in Hlast as [-> _]; [|done].
  destruct chunk_params as (Hs & Ho & H2).
  destruct (range_count_spec (length (normalize text)) _ Hs ltac:(lia)) as (Hm & Hlo & Hhi).
  rewrite Hlen in Hlo, Hhi. rewrite window_length in Hshort.
  replace (S (S n) - 1) with (S n) in Hlo by lia.
  unfold window. rewrite !take_ge by (rewrite length_drop; nia).
  replace (S n * (CHUNK_SIZE - CHUNK_OVERLAP))
    with (n * (CHUNK_SIZE - CHUNK_OVERLAP) + (CHUNK_SIZE - CHUNK_OVERLAP)) by lia.
  rewrite <- drop_drop. apply suffix_drop.
Qed.

Lemma create_chunks_last_redundant_witness :
  slice (sample_text 2500) 2400 3400 `suffix_of` slice (sample_text 2500) 1600 2600.
Proof.
  apply (create_chunks_last_redundant (sample_text 2500) 2).
  - vm_compute. lia.
  - vm_compute. reflexivity.
  - vm_compute. reflexivity.
  - vm_compute. reflexivity.
  - vm_compute. lia.
Defined.

(** ** Ingestion: further properties *)

Lemma create_chunks_strip text : create_chunks (strip text) = create_chunks text.
Proof. unfold create_chunks. by rewrite normalize_strip. Qed.

Lemma insert_chunks_appends {P} (t : table P) p chunks :
  ∃ new, rows (insert_chunks t p (enumerate chunks)) = rows t ++ new
         ∧ row_data <$> new = imap (λ i c, (p, i, c, None)) chunks.
Proof.
  eexists. split; [apply rows_insert_enumerate|].
  rewrite fmap_imap. by apply imap_ext.
Qed.

Lemma for_ingest_post posts w :
  bindable posts →
  for_ posts ingest_post w
  = (World (disk w)
           (Db (insert_posts (discourse_chunks (conn w)) posts) (markdown_chunks (conn w)))
           (requests w), inr ()).
Proof.
  intros Hb. revert w. induction Hb as [|post posts Hpost Hposts IH]; intros [dk [td tm] rq];
    [reflexivity|].
  cbn [for_]. unfold mbind, M_bind, bind. rewrite ingest_post_run, IH by done. reflexivity.
Qed.

Lemma insert_posts_appends t posts :
  ∃ new, rows (insert_posts t posts) = rows t ++ new
         ∧ row_data <$> new = posts ≫= post_chunks.
Proof.
  revert t. induction posts as [|post posts IH]; intros t.
  - exists []. by rewrite app_nil_r.
  - cbn [insert_posts foldl]. fold (insert_posts
      (insert_chunks t (discourse_of_post post)
         (enumerate (create_chunks (strip (Post.content post))))) posts).
    destruct (insert_chunks_appends t (discourse_of_post post)
                (create_chunks (strip (Post.content post)))) as (new1 & Hr1 & Hd1).
    destruct (IH (insert_chunks t (discourse_of_post post)
                (enumerate (create_chunks (strip (Post.content post)))))) as (new2 & Hr2 & Hd2).
    exists (new1 ++ new2). rewrite Hr2, Hr1, <- app_assoc. split; [done|].
    rewrite fmap_app, Hd1, Hd2, bind_cons. unfold post_chunks at 2.
    by rewrite create_chunks_strip.
Qed.

Lemma process_discourse_run posts w :
  bindable posts →
  process_discourse posts w
  = (let d := Db (insert_posts (discourse_chunks (disk w)) posts) (markdown_chunks (disk w)) in
     World d d (requests w), inr ()).
Proof.
  intros Hb. unfold process_discourse, mbind, M_bind, bind. cbn [connect].
  rewrite for_ingest_post by done. reflexivity.
Qed.

(** For posts that SQLite can store (integer fields within 64 bits, no
    lone surrogate in a string), [process_discourse] returns normally.
    It commits, to the end of [discourse_chunks] and in the order of the
    posts, one row per chunk of each post: the post's fields, the
    position of the chunk among the chunks of that post counted from 0,
    the chunk, and a null embedding.  [markdown_chunks] is not touched
    and no request is made. *)
Theorem process_discourse_appends (posts : list Post.t) (w : world) :
  bindable posts →
  ∃ w' new,
    process_discourse posts w = (w', inr ())
    ∧ conn w' = disk w' ∧ requests w' = requests w
    ∧ markdown_chunks (disk w') = markdown_chunks (disk w)
    ∧ rows (discourse_chunks (disk w')) = rows (discourse_chunks (disk w)) ++ new
    ∧ row_data <$> new = posts ≫= post_chunks.
Proof.
  intros Hb.
  destruct (insert_posts_appends (discourse_chunks (disk w)) posts) as (new & Hr & Hd).
  eexists _, new. rewrite process_discourse_run by done. cbv zeta.
  split; [reflexivity|]. cbn [disk conn requests discourse_chunks markdown_chunks].
  by repeat split.
Qed.

Lemma process_discourse_appends_witness :
  ∃ w' new,
    process_discourse [sample_post 2500; sample_post 10] sample_world = (w', inr ())
    ∧ conn w' = disk w' ∧ requests w' = requests sample_world
    ∧ markdown_chunks (disk w') = markdown_chunks (disk sample_world)
    ∧ rows (discourse_chunks (disk w'))
      = rows (discourse_chunks (disk sample_world)) ++ new
    ∧ row_data <$> new = [sample_post 2500; sample_post 10] ≫= post_chunks.
Proof.
  apply (process_discourse_appends [sample_post 2500; sample_post 10] sample_world).
  repeat constructor; vm_compute; reflexivity.
Defined.

(** Ingestion does not look at what the store holds: running
    [process_discourse] twice over the same posts, all of which SQLite
    can store, stores every chunk twice. *)
Theorem process_discourse_twice (posts : list Post.t) (w : world) :
  bindable posts →
  ∃ w1 w2 new1 new2,
    process_discourse posts w = (w1, inr ())
    ∧ process_discourse posts w1 = (w2, inr ())
    ∧ rows (discourse_chunks (disk w2))
      = rows (discourse_chunks (disk w)) ++ new1 ++ new2
    ∧ row_data <$> new1 = posts ≫= post_chunks
    ∧ row_data <$> new2 = posts ≫= post_chunks.
Proof.
  intros Hb.
  destruct (insert_posts_appends (discourse_chunks (disk w)) posts) as (new1 & Hr1 & Hd1).
  destruct (insert_posts_appends (insert_posts (discourse_chunks (disk w)) posts) posts)
    as (new2 & Hr2 & Hd2).
  eexists _, _, new1, new2. rewrite process_discourse_run by done. cbv zeta.
  split; [reflexivity|]. rewrite process_discourse_run by done. cbv zeta.
  split; [reflexivity|]. cbn [disk conn requests discourse_chunks markdown_chunks].
  rewrite Hr2, Hr1, <- app_assoc. by repeat split.
Qed.

Lemma process_discourse_twice_witness :
  ∃ w1 w2 new1 new2,
    process_discourse [sample_post 10] sample_world = (w1, inr ())
    ∧ process_discourse [sample_post 10] w1 = (w2, inr ())
    ∧ rows (discourse_chunks (disk w2))
      = rows (discourse_chunks (disk sample_world)) ++ new1 ++ new2
    ∧ row_data <$> new1 = [sample_post 10] ≫= post_chunks
    ∧ row_data <$> new2 = [sample_post 10] ≫= post_chunks.
Proof.
  apply (process_discourse_twice [sample_post 10] sample_world).
  repeat constructor; vm_compute; reflexivity.
Defined.

(** *** Posts that cannot be stored *)

Lemma surrogate_not_space c : is_surrogate c = true → isspace c = false.
Proof.
  unfold is_surrogate, isspace.
  rewrite andb_true_iff, !N.leb_le.
  rewrite !orb_false_iff, !andb_false_iff, !N.leb_gt, !N.eqb_neq. lia.
Qed.

Lemma elem_of_lstrip x s : x ∈ s → isspace x = false → x ∈ lstrip s.
Proof.
  intros Hx Hs. induction s as [|c s IH]; [done|]. cbn [lstrip].
  destruct (isspace c) eqn:Hc; [|done].
  apply elem_of_cons in Hx as [->|Hx]; [congruence|by apply IH].
Qed.

Lemma elem_of_rstrip x s : x ∈ s → isspace x = false → x ∈ rstrip s.
Proof.
  intros Hx Hs. induction s as [|c s IH]; [done|]. cbn [rstrip].
  apply elem_of_cons in Hx as [->|Hx].
  - rewrite Hs. destruct (rstrip s); left.
  - specialize (IH Hx). destruct (rstrip s) as [|d r]; [by apply elem_of_nil in IH|].
    by right.
Qed.

Lemma elem_of_normalize_surrogate x text :
  x ∈ text → is_surrogate x = true → x ∈ normalize text.
Proof.
  intros Hx Hs. pose proof (surrogate_not_space x Hs) as Hsp.
  unfold normalize, strip. apply elem_of_rstrip; [|done]. apply elem_of_lstrip; [|done].
  unfold replace_nl. apply list_elem_of_fmap. exists x. split; [|done].
  unfold replace_nl_char. destruct (N.eqb_spec x NL) as [->|]; [discriminate|done].
Qed.

Lemma elem_of_reassemble x overlap chunks :
  x ∈ reassemble overlap chunks → ∃ chunk, chunk ∈ chunks ∧ x ∈ chunk.
Proof.
  destruct chunks as [|c0 rest]; cbn [reassemble]; [by intros ?%elem_of_nil|].
  intros [Hx|Hx]%elem_of_app.
  - exists c0. split; [left|done].
  - apply list_elem_of_In, in_concat in Hx as (l & Hl & Hx).
    apply list_elem_of_In, list_elem_of_fmap in Hl as (c & -> & Hc).
    exists c. split; [by right|]. apply list_elem_of_In in Hx.
    by apply (subseteq_drop overlap c).
Qed.

(** Every character of the normalised text is in some chunk. *)
Lemma create_chunks_cover text x :
  x ∈ normalize text → ∃ chunk, chunk ∈ create_chunks text ∧ x ∈ chunk.
Proof.
  intros Hx. destruct (Nat.le_gt_cases (length (normalize text)) CHUNK_SIZE) as [H|H].
  - rewrite create_chunks_short by done. exists (normalize text). split; [left|done].
  - apply (elem_of_reassemble x CHUNK_OVERLAP).
    rewrite create_chunks_long by done.
    destruct chunk_params as (Hs & Ho & _).
    rewrite reassemble_all; [done|done|done|lia].
Qed.

Lemma for_insert_discourse_unbindable p l k w :
  bindable_meta p = true →
  Exists (λ chunk, utf8_ok chunk = false) l →
  ∃ w' e, for_ (imap (λ i x, (k + i, x)) l)
               (λ '(idx, chunk), insert_discourse p idx chunk None) w = (w', inl e)
          ∧ (e = OverflowError ∨ e = UnicodeEncodeError).
Proof.
  intros Hp Hl. revert k w. induction l as [|c l IH]; intros k w; [by inversion Hl|].
  rewrite imap_cons. cbn [for_]. unfold mbind, M_bind, bind.
  destruct (utf8_ok c) eqn:Hc.
  - rewrite insert_discourse_bindable by done. cbn [modify_conn].
    apply Exists_cons in Hl as [Hl|Hl]; [congruence|].
    destruct (IH Hl (S k) (World (disk w)
                (Db (sql_insert (discourse_chunks (conn w)) p (k + 0) c None)
                    (markdown_chunks (conn w))) (requests w))) as (w' & e & Hrun & He).
    exists w', e. split; [|done]. rewrite <- Hrun. f_equal.
    apply imap_ext. intros i x _. cbn. f_equal. lia.
  - destruct (insert_discourse_unbindable p (k + 0) c None w) as (e & -> & He);
      [by rewrite Hp, Hc|]. by exists w, e.
Qed.

Lemma ingest_post_unbindable post w :
  bindable_post post = false →
  ∃ w' e, ingest_post post w = (w', inl e)
          ∧ (e = OverflowError ∨ e = UnicodeEncodeError).
Proof.
  unfold bindable_post, ingest_post. intros Hb.
  destruct (bindable_meta (discourse_of_post post)) eqn:Hp.
  - cbn [andb] in Hb.
    assert (∃ x, x ∈ Post.content post ∧ is_surrogate x = true) as (x & Hx & Hs).
    { destruct (utf8_ok (Post.content post)) eqn:Hu; [discriminate|]. clear Hb.
      unfold utf8_ok in Hu. induction (Post.content post) as [|c s IH]; [discriminate|].
      cbn [forallb] in Hu. destruct (is_surrogate c) eqn:Hc.
      - exists c. split; [left|done].
      - cbn in Hu. destruct (IH Hu) as (x & Hx & Hs). exists x. split; [by right|done]. }
    apply elem_of_normalize_surrogate in Hx; [|done].
    rewrite <- normalize_strip in Hx.
    apply create_chunks_cover in Hx as (chunk & Hchunk & Hin).
    apply (for_insert_discourse_unbindable _ _ 0); [done|].
    apply Exists_exists. exists chunk. split; [done|].
    destruct (utf8_ok chunk) eqn:Hu; [|done].
    rewrite utf8_ok_spec in Hu. rewrite (Hu x Hin) in Hs. discriminate.
  - destruct (create_chunks (strip (Post.content post))) as [|c chunks] eqn:Hchunks;
      [by apply create_chunks_nonempty in Hchunks|].
    unfold enumerate. rewrite imap_cons. cbn [for_]. unfold mbind, M_bind, bind.
    destruct (insert_discourse_unbindable (discourse_of_post post) 0 c None w)
      as (e & -> & He); [by rewrite Hp|]. by exists w, e.
Qed.

Lemma for_ingest_post_unbindable posts w :
  Exists (λ post, bindable_post post = false) posts →
  ∃ w' e, for_ posts ingest_post w = (w', inl e)
          ∧ (e = OverflowError ∨ e = UnicodeEncodeError).
Proof.
  intros Hex. revert w. induction posts as [|post posts IH]; intros w; [by inversion Hex|].
  cbn [for_]. unfold mbind, M_bind, bind.
  destruct (bindable_post post) eqn:Hb.
  - rewrite ingest_post_run by done.
    apply Exists_cons in Hex as [Hex|Hex]; [congruence|]. by apply IH.
  - destruct (ingest_post_unbindable post w Hb) as (w' & e & -> & He). by exists w', e.
Qed.

Lemma ingest_post_disk d0 rq post :
  invariant (λ w, disk w = d0 ∧ requests w = rq) (ingest_post post).
Proof.
  unfold ingest_post. apply invariant_for. intros [idx chunk].
  apply insert_discourse_invariant. by intros w Hw.
Qed.

(** A post that SQLite cannot store aborts [process_discourse]: when an
    integer field of some post is outside 64 bits, or a string of some
    post holds a lone surrogate, the run raises [OverflowError] or
    [UnicodeEncodeError] and the database file is left as it was, the
    chunks of the posts before it included. *)
Theorem process_discourse_unbindable (posts : list Post.t) (w : world) :
  Exists (λ post, bindable_post post = false) posts →
  ∃ w' e, process_discourse posts w = (w', inl e)
          ∧ (e = OverflowError ∨ e = UnicodeEncodeError)
          ∧ disk w' = disk w ∧ requests w' = requests w.
Proof.
  intros Hex. unfold process_discourse, mbind, M_bind, bind. cbn [connect].
  set (w0 := World (disk w) (disk w) (requests w)).
  destruct (for_ingest_post_unbindable posts w0 Hex) as (w' & e & Hrun & He).
  pose proof (invariant_for (λ w, disk w = disk w0 ∧ requests w = requests w0)
                ingest_post posts (ingest_post_disk _ _) w0 (conj eq_refl eq_refl)) as Hinv.
  rewrite Hrun in Hinv |- *. destruct Hinv as [Hd Hr]. by exists w', e.
Qed.

Lemma process_discourse_unbindable_witness :
  ∃ w' e, process_discourse [sample_post 10; sample_post_surrogate] sample_world = (w', inl e)
          ∧ (e = OverflowError ∨ e = UnicodeEncodeError)
          ∧ disk w' = disk sample_world ∧ requests w' = requests sample_world.
Proof.
  apply (process_discourse_unbindable [sample_post 10; sample_post_surrogate] sample_world).
  right. left. vm_compute. reflexivity.
Defined.

(** ** Properties of the database that every statement keeps *)

Section db_invariant.
Variable Φ : db → Prop.
Hypothesis Φ_insert_discourse : ∀ d p idx c,
  Φ d → Φ (Db (sql_insert (discourse_chunks d) p idx c None) (markdown_chunks d)).
Hypothesis Φ_insert_markdown : ∀ d p idx c,
  Φ d → Φ (Db (discourse_chunks d) (sql_insert (markdown_chunks d) p idx c None)).
Hypothesis Φ_update : ∀ d tbl e i, Φ d → Φ (db_update_embedding tbl e i d).

Lemma modify_conn_both f : (∀ d, Φ d → Φ (f d)) → invariant (both Φ) (modify_conn f).
Proof. intros Hf w [Hd Hc]. split; [exact Hd|]. by apply Hf. Qed.

Lemma ingest_post_both post : invariant (both Φ) (ingest_post post).
Proof.
  unfold ingest_post. apply invariant_for. intros [idx chunk].
  apply insert_discourse_invariant.
  apply modify_conn_both. intros d. apply Φ_insert_discourse.
Qed.

Lemma ingest_document_both content : invariant (both Φ) (ingest_document content).
Proof.
  unfold ingest_document. apply invariant_bind.
  - unfold extract_frontmatter. destruct (match_frontmatter content) as [[meta e]|];
      [|apply invariant_ret].
    repeat (apply invariant_bind;
            [unfold search_group1; destruct (search_field _ meta);
               [apply invariant_ret | apply invariant_raise]
            |intros ?]).
    apply invariant_ret.
  - intros [[[title url] downloaded_at] content']. apply invariant_for.
    intros [idx chunk]. apply modify_conn_both. intros d. apply Φ_insert_markdown.
Qed.

Lemma process_discourse_both posts : invariant (both Φ) (process_discourse posts).
Proof.
  unfold process_discourse.
  apply invariant_bind; [by intros w [Hd Hc]|intros ?].
  apply invariant_bind; [apply invariant_for, ingest_post_both|intros ?].
  apply invariant_bind; [by intros w [Hd Hc]|intros ?]. by intros w [Hd Hc].
Qed.

Lemma process_markdown_both files : invariant (both Φ) (process_markdown files).
Proof.
  unfold process_markdown.
  apply invariant_bind; [by intros w [Hd Hc]|intros ?].
  apply invariant_bind; [|intros ?].
  { apply invariant_for. intros [filename content].
    destruct (negb _); [apply invariant_ret | apply ingest_document_both]. }
  apply invariant_bind; [by intros w [Hd Hc]|intros ?]. by intros w [Hd Hc].
Qed.

Lemma generate_embeddings_both service : invariant (both Φ) (generate_embeddings service).
Proof.
  unfold generate_embeddings.
  apply invariant_bind; [by intros w [Hd Hc]|intros ?].
  apply invariant_bind; [by intros w Hw|intros discourse].
  apply invariant_bind; [by intros w Hw|intros markdown].
  apply invariant_bind; [|intros ?; by intros w [Hd Hc]].
  apply invariant_for. intros [dataset tbl]. apply invariant_for.
  intros [i c]. unfold embed_row.
  apply invariant_bind; [|intros e].
  { intros w [Hd Hc]. unfold request_embedding. by destruct (service _ _). }
  apply invariant_bind; [|intros ?; by intros w [Hd Hc]].
  apply modify_conn_both. intros d. apply Φ_update.
Qed.
End db_invariant.

Lemma both_fresh (Φ : db → Prop) w : Φ (disk w) → both Φ (World (disk w) (disk w) (requests w)).
Proof. by split. Qed.

Lemma elem_of_ids_le_max {P} (t : table P) i : i ∈ id <$> rows t → (i ≤ max_id t)%N.
Proof.
  unfold max_id. induction (rows t) as [|r l IH]; cbn.
  - by intros ?%elem_of_nil.
  - intros [->|Hi]%elem_of_cons; [lia|]. specialize (IH Hi). lia.
Qed.

Lemma sql_insert_unique {P} (t : table P) p idx c e :
  unique_ids t → unique_ids (sql_insert t p idx c e).
Proof.
  unfold unique_ids, sql_insert. cbn [rows]. rewrite fmap_app. cbn [fmap list_fmap id].
  intros Hu. apply NoDup_app. split; [done|]. split; [|apply NoDup_singleton].
  intros i Hi%elem_of_ids_le_max Hin%list_elem_of_singleton. lia.
Qed.

Lemma sql_update_embedding_ids {P} (t : table P) e i :
  id <$> rows (sql_update_embedding t e i).1 = id <$> rows t.
Proof.
  cbn [sql_update_embedding fst rows]. rewrite <- list_fmap_compose.
  apply list_fmap_ext. intros _ r _. cbn. by destruct (id r =? i)%N.
Qed.

Lemma sql_update_embedding_unique {P} (t : table P) e i :
  unique_ids t → unique_ids (sql_update_embedding t e i).1.
Proof. unfold unique_ids. by rewrite sql_update_embedding_ids. Qed.

Lemma db_update_embedding_unique d tbl e i :
  unique_db d → unique_db (db_update_embedding tbl e i d).
Proof.
  intros [Hd Hm]. destruct tbl; split; cbn [db_update_embedding discourse_chunks markdown_chunks];
    first [done | by apply sql_update_embedding_unique].
Qed.

Lemma unique_db_insert_discourse d p idx c :
  unique_db d →
  unique_db (Db (sql_insert (discourse_chunks d) p idx c None) (markdown_chunks d)).
Proof. intros [? ?]. split; [by apply sql_insert_unique|done]. Qed.

Lemma unique_db_insert_markdown d p idx c :
  unique_db d →
  unique_db (Db (discourse_chunks d) (sql_insert (markdown_chunks d) p idx c None)).
Proof. intros [? ?]. split; [done|by apply sql_insert_unique]. Qed.

(** The primary key survives every operation of the pipeline: when no
    two rows of a table of the file share a key, the same holds after
    [process_discourse], [process_markdown] and [generate_embeddings],
    whether they return or raise. *)
Theorem primary_key_preserved (service : list str → str → option bytes)
    (posts : list Post.t) (files : list (str * str)) (w : world) :
  unique_db (disk w) →
  unique_db (disk (process_discourse posts w).1)
  ∧ unique_db (disk (process_markdown files w).1)
  ∧ unique_db (disk (generate_embeddings service w).1).
Proof.
  intros Hu. apply (both_fresh unique_db) in Hu.
  pose proof unique_db_insert_discourse as H1.
  pose proof unique_db_insert_markdown as H2.
  split; [|split].
  - change (process_discourse posts w)
      with (process_discourse posts (World (disk w) (disk w) (requests w))).
    apply (invariant_run _ _ _ (process_discourse_both unique_db H1 posts) Hu).
  - change (process_markdown files w)
      with (process_markdown files (World (disk w) (disk w) (requests w))).
    apply (invariant_run _ _ _ (process_markdown_both unique_db H2 files) Hu).
  - change (generate_embeddings service w)
      with (generate_embeddings service (World (disk w) (disk w) (requests w))).
    apply (invariant_run _ _ _
             (generate_embeddings_both unique_db
                (λ d tbl e i, db_update_embedding_unique d tbl e i) service) Hu).
Qed.

Lemma primary_key_preserved_witness :
  unique_db (disk (process_discourse [sample_post 2500] sample_world).1)
  ∧ unique_db (disk (process_markdown sample_files sample_world).1)
  ∧ unique_db (disk (generate_embeddings sample_service sample_world).1).
Proof.
  apply (primary_key_preserved sample_service [sample_post 2500] sample_files sample_world).
  split; apply (bool_decide_unpack _); vm_compute; exact I.
Defined.

(** ** Markdown ingestion: further properties *)

Lemma process_markdown_body files w :
  process_markdown files w = (connect ;; for_ files markdown_body ;; commit ;; close) w.
Proof.
  unfold process_markdown, mbind, M_bind, bind. cbn [connect].
  rewrite (for_ext files _ markdown_body); [reflexivity|]. by intros [].
Qed.

Lemma for_filter_md files w :
  for_ files markdown_body w = for_ (filter is_md files) markdown_body w.
Proof.
  revert w. induction files as [|[name content] files IH]; intros w; [reflexivity|].
  destruct (endswith (lit ".md") name) eqn:Hmd.
  - rewrite filter_cons_True by done. cbn [for_]. unfold mbind, M_bind, bind.
    destruct (markdown_body (name, content) w) as [w' [e|[]]]; [reflexivity|apply IH].
  - rewrite filter_cons_False by (unfold is_md; cbn [fst]; congruence).
    cbn [for_]. unfold mbind, M_bind, bind, markdown_body. rewrite Hmd. cbn. apply IH.
Qed.

(** Directory entries whose name does not end in [.md] play no part:
    [process_markdown] behaves as if they were not listed. *)
Theorem process_markdown_only_md (files : list (str * str)) (w : world) :
  process_markdown files w = process_markdown (filter is_md files) w.
Proof.
  rewrite !process_markdown_body. unfold mbind, M_bind, bind. cbn [connect].
  by rewrite for_filter_md.
Qed.

Lemma ingest_document_unmatched content w :
  field_unmatched content → ingest_document content w = (w, inl AttributeError).
Proof.
  intros (meta & Hblock & Hmiss). unfold ingest_document, extract_frontmatter.
  rewrite (delimited_block_match _ _ Hblock). unfold search_group1.
  destruct (search_field (lit "title") meta) as [title|] eqn:Ht; [|reflexivity].
  destruct (search_field (lit "original_url") meta) as [url|] eqn:Hu; [|reflexivity].
  destruct (search_field (lit "downloaded_at") meta) as [dl|] eqn:Hd; [|reflexivity].
  apply search_field_Some in Ht, Hu, Hd. tauto.
Qed.

Lemma ingest_document_disk d0 rq content :
  hoare (λ w, disk w = d0 ∧ requests w = rq) (ingest_document content)
        (λ _ w, disk w = d0 ∧ requests w = rq)
        (λ e w, e = AttributeError ∧ disk w = d0 ∧ requests w = rq).
Proof.
  intros w Hw. unfold ingest_document, extract_frontmatter, search_group1.
  unfold mbind, M_bind, bind.
  destruct (match_frontmatter content) as [[meta e]|].
  - destruct (search_field (lit "title") meta); [|by cbn].
    destruct (search_field (lit "original_url") meta); [|by cbn].
    destruct (search_field (lit "downloaded_at") meta); [|by cbn].
    cbn [mret M_ret ret]. by rewrite for_insert_markdown.
  - cbn [mret M_ret ret]. by rewrite for_insert_markdown.
Qed.

Lemma markdown_body_disk d0 rq file :
  hoare (λ w, disk w = d0 ∧ requests w = rq) (markdown_body file)
        (λ _ w, disk w = d0 ∧ requests w = rq)
        (λ e w, e = AttributeError ∧ disk w = d0 ∧ requests w = rq).
Proof.
  destruct file as [name content]. unfold markdown_body.
  destruct (negb _); [by intros w Hw | apply ingest_document_disk].
Qed.

Lemma for_markdown_body_disk d0 rq files :
  hoare (λ w, disk w = d0 ∧ requests w = rq) (for_ files markdown_body)
        (λ _ w, disk w = d0 ∧ requests w = rq)
        (λ e w, e = AttributeError ∧ disk w = d0 ∧ requests w = rq).
Proof.
  apply (hoare_for (λ _ w, disk w = d0 ∧ requests w = rq)).
  intros file rest. apply markdown_body_disk.
Qed.

Lemma for_markdown_body_unmatched files name content w :
  (name, content) ∈ files → is_md (name, content) → field_unmatched content →
  ∃ w', for_ files markdown_body w = (w', inl AttributeError).
Proof.
  intros Hin Hmd Hbad. revert w. induction files as [|file files IH]; intros w.
  - by apply elem_of_nil in Hin.
  - cbn [for_]. unfold mbind, M_bind, bind.
    apply elem_of_cons in Hin as [<-|Hin].
    + unfold markdown_body. unfold is_md in Hmd. cbn [fst] in Hmd. rewrite Hmd. cbn [negb].
      rewrite ingest_document_unmatched by done. by exists w.
    + pose proof (markdown_body_disk (disk w) (requests w) file w (conj eq_refl eq_refl))
        as Hfile.
      destruct (markdown_body file w) as [w1 [e|[]]].
      * destruct Hfile as [-> _]. by exists w1.
      * by apply IH.
Qed.

Lemma process_markdown_unmatched files name content w :
  (name, content) ∈ files → is_md (name, content) → field_unmatched content →
  ∃ w', process_markdown files w = (w', inl AttributeError)
        ∧ disk w' = disk w ∧ requests w' = requests w.
Proof.
  intros Hin Hmd Hbad. rewrite process_markdown_body.
  unfold mbind, M_bind, bind. cbn [connect].
  set (w0 := World (disk w) (disk w) (requests w)).
  destruct (for_markdown_body_unmatched files name content w0 Hin Hmd Hbad) as [w' Hrun].
  pose proof (for_markdown_body_disk (disk w) (requests w) files w0 (conj eq_refl eq_refl))
    as Hdisk.
  rewrite Hrun in Hdisk |- *. destruct Hdisk as (_ & Hdisk & Hrq).
  by exists w'.
Qed.

(** ** Document ingestion: claims *)

(** C2, as the code has it.  The header is what the frontmatter pattern
    matches: the content opens with three dashes and a newline, and the
    block runs to the first later newline, three dashes, newline.  A
    field is found when the block holds, anywhere, the key, a colon, a
    space and a quoted one-line value.  When the header pattern matches
    and one of [title], [original_url], [downloaded_at] is found nowhere
    in the block, the ingestion of the document raises [AttributeError]
    (that of calling [.group(1)] on a failed search) and inserts
    nothing; no caller catches it, so a run of [process_markdown] over
    any listing that names the document as an [.md] file raises too and
    leaves the database file as it was.  A document on which the header
    pattern does not match returns normally and is chunked whole, each
    chunk stored with three empty metadata fields, its index, and a null
    embedding. *)
Theorem ingest_document_header (content : str) (w : world) :
  (∀ meta, delimited_block content meta →
     ¬ field_occurs (lit "title") meta ∨ ¬ field_occurs (lit "original_url") meta
     ∨ ¬ field_occurs (lit "downloaded_at") meta →
     ingest_document content w = (w, inl AttributeError)
     ∧ ∀ files name, (name, content) ∈ files → is_md (name, content) →
         ∃ w', process_markdown files w = (w', inl AttributeError) ∧ disk w' = disk w)
  ∧ (¬ delimited content →
     ∃ w', ingest_document content w = (w', inr ())
       ∧ disk w' = disk w
       ∧ discourse_chunks (conn w') = discourse_chunks (conn w)
       ∧ rows (markdown_chunks (conn w'))
         = rows (markdown_chunks (conn w))
           ++ imap (λ i c, Row (next_base (markdown_chunks (conn w)) + 1 + N.of_nat i)%N
                               (Markdown.mk [] [] []) i c None)
                   (create_chunks content)).
Proof.
  split.
  - intros meta Hblock Hmiss.
    assert (field_unmatched content) as Hbad by (by exists meta).
    split; [by apply ingest_document_unmatched|].
    intros files name Hin Hmd.
    destruct (process_markdown_unmatched files name content w Hin Hmd Hbad)
      as (w' & Hrun & Hdisk & _).
    by exists w'.
  - intros Hno%match_frontmatter_None. unfold ingest_document, extract_frontmatter.
    rewrite Hno. unfold mbind, M_bind, bind. cbn [mret M_ret ret].
    rewrite for_insert_markdown. eexists. split; [reflexivity|].
    cbn [disk conn discourse_chunks markdown_chunks].
    split; [reflexivity|]. split; [reflexivity|]. apply rows_insert_enumerate.
Qed.

Lemma ingest_document_header_witness :
  (ingest_document sample_doc_title_only sample_world = (sample_world, inl AttributeError)
   ∧ ∃ w', process_markdown sample_files sample_world = (w', inl AttributeError)
           ∧ disk w' = disk sample_world)
  ∧ ∃ w', ingest_document sample_doc_no_header sample_world = (w', inr ())
      ∧ (λ r, (prov r, chunk_index r, content r, embedding r))
          <$> drop 3 (rows (markdown_chunks (conn w')))
        = [(Markdown.mk [] [] [], 0, lit "just a body", None)].
Proof.
  split.
  - destruct (proj1 (ingest_document_header sample_doc_title_only sample_world)
                (lit "title: " ++ [QUOTE] ++ lit "X" ++ [QUOTE])) as [Hdoc Hrun].
    + apply (match_frontmatter_Some _ _ 19). vm_compute. reflexivity.
    + right. left. apply search_field_None. vm_compute. reflexivity.
    + split; [exact Hdoc|]. apply (Hrun sample_files (lit "b.md")).
      * apply (bool_decide_unpack _). vm_compute. exact I.
      * vm_compute. reflexivity.
  - destruct (proj2 (ingest_document_header sample_doc_no_header sample_world))
      as (w' & Hrun & _ & _ & Hrows).
    + apply match_frontmatter_None. vm_compute. reflexivity.
    + exists w'. split; [exact Hrun|]. rewrite Hrows. vm_compute. reflexivity.
Defined.

(** C2, as stated, fails.  A document opens with a header block of three
    lines, none of which declares [title] (the first declares
    [subtitle]): its ingestion does not fail, and takes the subtitle for
    the title.  Another opens with an empty header block, where all
    three fields are missing: its ingestion does not fail either, and
    chunks the two lines of dashes with the body. *)
Lemma ingest_document_header_title_missing :
  (∃ block w',
     spec_header_block sample_doc_subtitle = Some block
     ∧ length block = 3
     ∧ spec_field_declared (lit "title") block = false
     ∧ ingest_document sample_doc_subtitle empty_world = (w', inr ())
     ∧ (λ r, (prov r, content r)) <$> rows (markdown_chunks (conn w'))
       = [(Markdown.mk (lit "S") (lit "http://y") (lit "2024-01-01"), lit "body")])
  ∧ (∃ w',
       spec_header_block sample_doc_empty_block = Some []
       ∧ ingest_document sample_doc_empty_block empty_world = (w', inr ())
       ∧ (λ r, (prov r, content r)) <$> rows (markdown_chunks (conn w'))
         = [(Markdown.mk [] [] [], lit "--- --- body")]).
Proof. split; repeat eexists; vm_compute; reflexivity. Qed.

(** One document whose field search fails aborts the whole of
    [process_markdown]: when, for a listed [.md] file, the frontmatter
    pattern matches and one of the three field patterns matches nowhere
    in the block it delimits, the run raises [AttributeError] and the
    database file is left as it was, the chunks of the documents read
    before it included. *)
Theorem process_markdown_unmatched_aborts (files : list (str * str))
    (name content : str) (w : world) :
  (name, content) ∈ files → is_md (name, content) → field_unmatched content →
  ∃ w', process_markdown files w = (w', inl AttributeError)
        ∧ disk w' = disk w ∧ requests w' = requests w.
Proof. apply process_markdown_unmatched. Qed.

Lemma process_markdown_unmatched_aborts_witness :
  ∃ w', process_markdown sample_files sample_world = (w', inl AttributeError)
        ∧ disk w' = disk sample_world ∧ requests w' = requests sample_world.
Proof.
  apply (process_markdown_unmatched_aborts sample_files (lit "b.md") sample_doc_title_only).
  - apply (bool_decide_unpack _). vm_compute. exact I.
  - vm_compute. reflexivity.
  - exists (lit "title: " ++ [QUOTE] ++ lit "X" ++ [QUOTE]). split.
    + apply (match_frontmatter_Some _ _ 19). vm_compute. reflexivity.
    + right. left. apply search_field_None. vm_compute. reflexivity.
Defined.

(** ** The header patterns: further properties *)

Lemma lazy_to_quote_no_quote s v : lazy_to_quote s = Some v → QUOTE ∉ v.
Proof.
  revert v. induction s as [|c s IH]; intros v; cbn [lazy_to_quote]; [discriminate|].
  destruct (N.eqb_spec c QUOTE) as [->|Hq].
  - intros [= <-]. apply not_elem_of_nil.
  - destruct (c =? NL)%N; [discriminate|].
    destruct (lazy_to_quote s) as [v'|]; [|discriminate]. cbn. intros [= <-].
    apply not_elem_of_cons. split; [congruence | by apply IH].
Qed.

Lemma lazy_to_quote_plain v rest : plain v → lazy_to_quote (v ++ QUOTE :: rest) = Some v.
Proof.
  intros [Hq Hn]. induction v as [|c v IH]; cbn [app lazy_to_quote].
  - by rewrite N.eqb_refl.
  - apply not_elem_of_cons in Hq as [Hcq Hq]. apply not_elem_of_cons in Hn as [Hcn Hn].
    rewrite (proj2 (N.eqb_neq c QUOTE)), (proj2 (N.eqb_neq c NL)) by congruence.
    by rewrite IH.
Qed.

Lemma lazy_to_quote_newline rest : lazy_to_quote (NL :: rest) = None.
Proof. reflexivity. Qed.

Lemma field_label_no_quote key : QUOTE ∉ key → QUOTE ∉ key ++ lit ": ".
Proof.
  intros Hk. apply not_elem_of_app. split; [done|].
  apply (bool_decide_unpack _). vm_compute. exact I.
Qed.

Lemma match_field_here_segment key u rest :
  QUOTE ∉ key → QUOTE ∉ u →
  match_field_here key (u ++ QUOTE :: rest)
  = if decide (u = key ++ lit ": ") then lazy_to_quote rest else None.
Proof.
  intros Hk Hu. unfold match_field_here, field_open.
  destruct (decide (u = key ++ lit ": ")) as [->|Hne].
  - replace ((key ++ lit ": ") ++ QUOTE :: rest)
      with ((key ++ lit ": " ++ [QUOTE]) ++ rest) by (by rewrite <- !app_assoc).
    by rewrite startswith_app, drop_app_length.
  - destruct (startswith _ _) eqn:Hs; [|reflexivity].
    apply startswith_spec in Hs as [r Hr]. destruct Hne.
    replace ((key ++ lit ": " ++ [QUOTE]) ++ r)
      with ((key ++ lit ": ") ++ QUOTE :: r) in Hr by (by rewrite <- !app_assoc).
    apply not_elem_of_app_cons_inv_l in Hr as (? & _); [done| |done].
    by apply field_label_no_quote.
Qed.

(** Searching across a stretch without a quote: only the occurrence that
    ends at the next quote can match. *)
Lemma search_field_segment key u rest :
  QUOTE ∉ key → QUOTE ∉ u →
  search_field key (u ++ QUOTE :: rest)
  = match (if decide (key ++ lit ": " `suffix_of` u) then lazy_to_quote rest else None) with
    | Some v => Some v
    | None => search_field key rest
    end.
Proof.
  intros Hk Hu. assert (key ++ lit ": " ≠ []) as Hne.
  { intros H%(f_equal length). rewrite length_app in H. cbn in H. lia. }
  induction u as [|c u IH].
  - pose proof (match_field_here_segment key [] rest Hk Hu) as Hm.
    cbn [app search_field] in Hm |- *. rewrite Hm.
    destruct (decide ([] = _)) as [H|_]; [by destruct Hne|].
    destruct (decide (_ `suffix_of` [])) as [H%suffix_nil_inv|_]; done.
  - pose proof (match_field_here_segment key (c :: u) rest Hk Hu) as Hm.
    apply not_elem_of_cons in Hu as [Hc Hu]. specialize (IH Hu).
    cbn [app search_field] in Hm |- *. rewrite Hm, IH. destruct (decide (c :: u = key ++ lit ": ")) as [Heq|Hneq].
    + destruct (decide (_ `suffix_of` c :: u)) as [_|Hns]; [|by rewrite Heq in Hns].
      destruct (lazy_to_quote rest); [done|].
      destruct (decide (_ `suffix_of` u)) as [Hs%suffix_length|_]; [|done].
      rewrite <- Heq in Hs. cbn in Hs. lia.
    + destruct (decide (_ `suffix_of` u)) as [Hs|Hns];
        destruct (decide (_ `suffix_of` c :: u)) as [Hs'|Hns']; try done.
      * destruct Hns'. by apply suffix_cons_r.
      * destruct (key ++ lit ": ") as [|x l] eqn:Hkl; [done|].
        apply suffix_cons_inv in Hs' as [Heq|Hs']; [congruence|done].
Qed.

Lemma search_field_hit key u v rest :
  QUOTE ∉ key → QUOTE ∉ u → key ++ lit ": " `suffix_of` u → plain v →
  search_field key (u ++ QUOTE :: v ++ QUOTE :: rest) = Some v.
Proof.
  intros Hk Hu Hs Hv. rewrite search_field_segment by done.
  rewrite decide_True by done. by rewrite lazy_to_quote_plain.
Qed.

Lemma search_field_skip_label key u rest :
  QUOTE ∉ key → QUOTE ∉ u → ¬ key ++ lit ": " `suffix_of` u →
  search_field key (u ++ QUOTE :: rest) = search_field key rest.
Proof.
  intros Hk Hu Hs. rewrite search_field_segment by done. by rewrite decide_False.
Qed.

Lemma search_field_skip_value key v rest :
  QUOTE ∉ key → QUOTE ∉ v →
  search_field key (v ++ QUOTE :: NL :: rest) = search_field key (NL :: rest).
Proof.
  intros Hk Hv. rewrite search_field_segment by done.
  destruct (decide _); by rewrite ?lazy_to_quote_newline.
Qed.

(** The field patterns are not anchored to the start of a line: when no
    quote comes before it, the first place where the header reads the
    key, a colon, a space and a quoted one-line value gives the value of
    the field, whatever stands in front of the key. *)
Theorem search_field_first_occurrence (key pre v post : str) :
  QUOTE ∉ key → QUOTE ∉ pre → plain v →
  search_field key (pre ++ field_open key ++ v ++ [QUOTE] ++ post) = Some v.
Proof.
  intros Hk Hp Hv. unfold field_open.
  replace (pre ++ (key ++ lit ": " ++ [QUOTE]) ++ v ++ [QUOTE] ++ post)
    with ((pre ++ key ++ lit ": ") ++ QUOTE :: v ++ QUOTE :: post)
    by (by rewrite <- !app_assoc).
  apply search_field_hit; [done| |by apply suffix_app_r|done].
  apply not_elem_of_app. split; [done|by apply field_label_no_quote].
Qed.

Lemma search_field_first_occurrence_witness :
  search_field (lit "title")
    (lit "sub" ++ field_open (lit "title") ++ lit "S" ++ [QUOTE]
     ++ ([NL] ++ field_open (lit "title") ++ lit "T" ++ [QUOTE]))
  = Some (lit "S").
Proof.
  apply (search_field_first_occurrence (lit "title") (lit "sub") (lit "S")).
  - apply (bool_decide_unpack _). vm_compute. exact I.
  - apply (bool_decide_unpack _). vm_compute. exact I.
  - split; apply (bool_decide_unpack _); vm_compute; exact I.
Defined.

(** A value that [re.search] extracts is the text between the quotes of
    an occurrence of the field in the header, and holds neither a quote
    nor a newline. *)
Theorem search_field_value (key s v : str) :
  search_field key s = Some v →
  plain v ∧ ∃ pre post, s = pre ++ field_open key ++ v ++ [QUOTE] ++ post.
Proof.
  induction s as [|c s IH]; cbn [search_field].
  - destruct (match_field_here key []) as [g|] eqn:Hm; [|discriminate]. intros [= ->].
    pose proof Hm as (Hn & post & Hs)%match_field_here_Some.
    unfold match_field_here in Hm. destruct (startswith _ _); [|discriminate].
    apply lazy_to_quote_no_quote in Hm. split; [done|]. by exists [], post.
  - destruct (match_field_here key (c :: s)) as [g|] eqn:Hm.
    + intros [= ->]. pose proof Hm as (Hn & post & Hs)%match_field_here_Some.
      unfold match_field_here in Hm. destruct (startswith _ _); [|discriminate].
      apply lazy_to_quote_no_quote in Hm. split; [done|]. by exists [], post.
    + intros (Hv & pre & post & ->)%IH. split; [done|]. by exists (c :: pre), post.
Qed.

Lemma search_field_value_witness :
  plain (lit "X")
  ∧ ∃ pre post, lit "title: " ++ [QUOTE] ++ lit "X" ++ [QUOTE]
                = pre ++ field_open (lit "title") ++ lit "X" ++ [QUOTE] ++ post.
Proof.
  apply (search_field_value (lit "title") (lit "title: " ++ [QUOTE] ++ lit "X" ++ [QUOTE])).
  vm_compute. reflexivity.
Defined.

(** ** Documents with a complete header *)

(** Finding a pattern that opens with a newline, across a stretch
    without a newline. *)
Lemma find_segment p u rest :
  NL ∉ u →
  find (NL :: p) (u ++ NL :: rest)
  = if startswith p rest then Some (length u)
    else (λ j, length u + 1 + j) <$> find (NL :: p) rest.
Proof.
  intros Hu. induction u as [|c u IH].
  - cbn [app find startswith length]. rewrite N.eqb_refl. cbn [andb].
    destruct (startswith p rest); [done|]. apply option_fmap_ext. intros j. lia.
  - apply not_elem_of_cons in Hu as [Hc Hu]. specialize (IH Hu).
    cbn [app find startswith length].
    rewrite (proj2 (N.eqb_neq NL c)) by done. cbn [andb]. rewrite IH.
    destruct (startswith p rest); [done|].
    rewrite <- option_fmap_compose. apply option_fmap_ext. intros j. cbn. lia.
Qed.

Lemma field_line_no_newline key v : NL ∉ key → NL ∉ v → NL ∉ field_line key v.
Proof.
  intros Hk Hv. unfold field_line, field_open. rewrite !not_elem_of_app.
  repeat split; try done; apply (bool_decide_unpack _); vm_compute; exact I.
Qed.

Lemma NL_not_in_lit_keys :
  (NL ∉ lit "title") ∧ (NL ∉ lit "original_url") ∧ (NL ∉ lit "downloaded_at")
  ∧ (QUOTE ∉ lit "title") ∧ (QUOTE ∉ lit "original_url") ∧ (QUOTE ∉ lit "downloaded_at").
Proof. repeat split; apply (bool_decide_unpack _); vm_compute; exact I. Qed.

Lemma match_frontmatter_rendered title url downloaded_at body :
  NL ∉ title → NL ∉ url → NL ∉ downloaded_at →
  match_frontmatter (render_document title url downloaded_at body)
  = Some (render_header title url downloaded_at,
          length FRONTMATTER_OPEN + length (render_header title url downloaded_at)
          + length FRONTMATTER_CLOSE).
Proof.
  intros Ht Hu Hd. destruct NL_not_in_lit_keys as (K1 & K2 & K3 & _).
  unfold match_frontmatter, render_document.
  rewrite startswith_app, drop_app_length.
  set (h := render_header title url downloaded_at).
  assert (find FRONTMATTER_CLOSE (h ++ FRONTMATTER_CLOSE ++ body) = Some (length h)) as ->.
  { subst h. unfold render_header, FRONTMATTER_CLOSE.
    set (l1 := field_line (lit "title") title).
    set (l2 := field_line (lit "original_url") url).
    set (l3 := field_line (lit "downloaded_at") downloaded_at).
    replace ((l1 ++ [NL] ++ l2 ++ [NL] ++ l3) ++ ([NL] ++ lit "---" ++ [NL]) ++ body)
      with (l1 ++ NL :: (l2 ++ NL :: (l3 ++ NL :: ((lit "---" ++ [NL]) ++ body))))
      by (by rewrite <- !app_assoc).
    change ([NL] ++ lit "---" ++ [NL]) with (NL :: (lit "---" ++ [NL])).
    rewrite (find_segment _ l1) by (by apply field_line_no_newline).
    replace (startswith (lit "---" ++ [NL]) (l2 ++ _)) with false by reflexivity.
    rewrite (find_segment _ l2) by (by apply field_line_no_newline).
    replace (startswith (lit "---" ++ [NL]) (l3 ++ _)) with false by reflexivity.
    rewrite (find_segment _ l3) by (by apply field_line_no_newline).
    rewrite startswith_app. cbn [fmap option_fmap option_map]. f_equal.
    rewrite !length_app. cbn [length]. lia. }
  by rewrite take_app_length.
Qed.

Lemma render_header_segments title url downloaded_at :
  render_header title url downloaded_at
  = (lit "title" ++ lit ": ") ++ QUOTE :: title ++ QUOTE ::
    (NL :: lit "original_url" ++ lit ": ") ++ QUOTE :: url ++ QUOTE ::
    (NL :: lit "downloaded_at" ++ lit ": ") ++ QUOTE :: downloaded_at ++ QUOTE :: [].
Proof.
  unfold render_header, field_line, field_open. rewrite <- !app_assoc.
  cbn [app]. by rewrite <- !app_assoc.
Qed.

Lemma label_facts :
  (QUOTE ∉ lit "title" ++ lit ": ")
  ∧ (QUOTE ∉ NL :: lit "original_url" ++ lit ": ")
  ∧ (QUOTE ∉ NL :: lit "downloaded_at" ++ lit ": ")
  ∧ ¬ (lit "original_url" ++ lit ": " `suffix_of` lit "title" ++ lit ": ")
  ∧ ¬ (lit "downloaded_at" ++ lit ": " `suffix_of` lit "title" ++ lit ": ")
  ∧ ¬ (lit "downloaded_at" ++ lit ": " `suffix_of` NL :: lit "original_url" ++ lit ": ").
Proof.
  repeat split; apply (bool_decide_unpack _); vm_compute; exact I.
Qed.

Lemma search_fields_rendered title url downloaded_at :
  plain title → plain url → plain downloaded_at →
  search_field (lit "title") (render_header title url downloaded_at) = Some title
  ∧ search_field (lit "original_url") (render_header title url downloaded_at) = Some url
  ∧ search_field (lit "downloaded_at") (render_header title url downloaded_at)
    = Some downloaded_at.
Proof.
  intros Ht Hu Hd. rewrite render_header_segments.
  destruct NL_not_in_lit_keys as (_ & _ & _ & Q1 & Q2 & Q3).
  destruct label_facts as (L1 & L2 & L3 & S1 & S2 & S3).
  assert (∀ key v u rest, QUOTE ∉ key → QUOTE ∉ v →
            search_field key (v ++ QUOTE :: (NL :: u) ++ rest)
            = search_field key ((NL :: u) ++ rest)) as Hskip
    by (intros key v u rest; apply (search_field_skip_value key v (u ++ rest))).
  split; [|split].
  - by apply search_field_hit.
  - rewrite search_field_skip_label by done.
    rewrite Hskip by (done || apply Ht).
    apply search_field_hit; [done|done| |done]. by apply suffix_cons_r.
  - rewrite search_field_skip_label by done.
    rewrite Hskip by (done || apply Ht).
    rewrite search_field_skip_label by done.
    rewrite Hskip by (done || apply Hu).
    apply search_field_hit; [done|done| |done]. by apply suffix_cons_r.
Qed.

Lemma extract_frontmatter_rendered title url downloaded_at body w :
  plain title → plain url → plain downloaded_at →
  extract_frontmatter (render_document title url downloaded_at body) w
  = (w, inr (title, url, downloaded_at, body)).
Proof.
  intros Ht Hu Hd. unfold extract_frontmatter.
  rewrite match_frontmatter_rendered by (apply Ht || apply Hu || apply Hd).
  destruct (search_fields_rendered title url downloaded_at Ht Hu Hd) as (H1 & H2 & H3).
  unfold search_group1. rewrite H1, H2, H3.
  unfold mbind, M_bind, bind. cbn [mret M_ret ret].
  unfold slice_from, render_document.
  replace (FRONTMATTER_OPEN ++ render_header title url downloaded_at ++ FRONTMATTER_CLOSE ++ body)
    with ((FRONTMATTER_OPEN ++ render_header title url downloaded_at ++ FRONTMATTER_CLOSE) ++ body)
    by (by rewrite <- !app_assoc).
  rewrite drop_app_length' by (rewrite !length_app; lia). reflexivity.
Qed.

(** A document that opens with the three fields, one per line and each
    value free of quotes and newlines, is read back as written: the
    header yields the three values, the header is cut off, and every
    chunk of the body is stored with those values, its index, and a null
    embedding. *)
Theorem ingest_document_rendered (title url downloaded_at body : str) (w : world) :
  plain title → plain url → plain downloaded_at →
  extract_frontmatter (render_document title url downloaded_at body) w
  = (w, inr (title, url, downloaded_at, body))
  ∧ ∃ w' new,
      ingest_document (render_document title url downloaded_at body) w = (w', inr ())
      ∧ disk w' = disk w
      ∧ discourse_chunks (conn w') = discourse_chunks (conn w)
      ∧ rows (markdown_chunks (conn w')) = rows (markdown_chunks (conn w)) ++ new
      ∧ row_data <$> new
        = imap (λ i c, (Markdown.mk title url downloaded_at, i, c, None)) (create_chunks body).
Proof.
  intros Ht Hu Hd. split; [by apply extract_frontmatter_rendered|].
  destruct (insert_chunks_appends (markdown_chunks (conn w))
              (Markdown.mk title url downloaded_at) (create_chunks body)) as (new & Hr & Hn).
  eexists _, new. unfold ingest_document, mbind, M_bind, bind.
  rewrite extract_frontmatter_rendered by done. rewrite for_insert_markdown.
  split; [reflexivity|]. cbn [disk conn discourse_chunks markdown_chunks]. by repeat split.
Qed.

Lemma ingest_document_rendered_witness :
  extract_frontmatter (render_document (lit "X") (lit "http://y") (lit "2024-01-01") [])
                      empty_world
  = (empty_world, inr (lit "X", lit "http://y", lit "2024-01-01", []))
  ∧ ∃ w' new,
      ingest_document (render_document (lit "X") (lit "http://y") (lit "2024-01-01") [])
                      empty_world = (w', inr ())
      ∧ disk w' = disk empty_world
      ∧ discourse_chunks (conn w') = discourse_chunks (conn empty_world)
      ∧ rows (markdown_chunks (conn w')) = rows (markdown_chunks (conn empty_world)) ++ new
      ∧ row_data <$> new
        = imap (λ i c, (Markdown.mk (lit "X") (lit "http://y") (lit "2024-01-01"), i, c, None))
               (create_chunks []).
Proof.
  apply (ingest_document_rendered (lit "X") (lit "http://y") (lit "2024-01-01") [] empty_world);
    split; apply (bool_decide_unpack _); vm_compute; exact I.
Defined.

(** ** The backfill: further properties *)

(** Under the primary key, embedding the first unembedded row removes
    exactly that row from the unembedded ones. *)
Lemma select_update_head {P} (l : list (row P)) e i c rest :
  NoDup (id <$> l) →
  (λ r, (id r, content r)) <$> filter (λ r, embedding r = None) l = (i, c) :: rest →
  (λ r, (id r, content r))
    <$> filter (λ r, embedding r = None)
          ((λ r, if (id r =? i)%N then set_row_embedding e r else r) <$> l)
  = rest.
Proof.
  induction l as [|r l IH]; [discriminate|].
  rewrite fmap_cons, NoDup_cons. intros [Hr Hl]. rewrite fmap_cons.
  destruct (embedding r) as [b|] eqn:Hb.
  - rewrite filter_cons_False by (rewrite Hb; done). intros Hsel.
    assert (id r ≠ i) as Hne.
    { intros Heq. destruct Hr. rewrite Heq.
      assert ((i, c) ∈ (λ r, (id r, content r)) <$> filter (λ r, embedding r = None) l)
        as (r' & [= -> _] & Hin%list_elem_of_filter)%list_elem_of_fmap
        by (rewrite Hsel; left).
      apply list_elem_of_fmap. exists r'. by destruct Hin. }
    rewrite (proj2 (N.eqb_neq _ _) Hne).
    rewrite filter_cons_False by (rewrite Hb; done). by apply IH.
  - rewrite filter_cons_True by done. rewrite fmap_cons. intros [= Hi Hc Hrest].
    rewrite (proj2 (N.eqb_eq _ _) Hi).
    rewrite filter_cons_False by (cbn; done).
    rewrite fmap_update_no_match by (by rewrite <- Hi). done.
Qed.

Lemma sql_select_update_head {P} (t : table P) e i c rest :
  unique_ids t →
  sql_select_unembedded t = (i, c) :: rest →
  sql_select_unembedded (sql_update_embedding t e i).1 = rest.
Proof. apply select_update_head. Qed.

Section backfill_trace.
Variable service : list str → str → option bytes.
Variables (Ld Lm : list (N * str)) (rq0 : list str).

Lemma embed_row_trace_discourse x rest :
  hoare (trace_discourse Ld Lm rq0 (x :: rest)) (embed_row service discourse_chunks_name x)
        (λ _, trace_discourse Ld Lm rq0 rest) (trace_failed Ld Lm rq0).
Proof.
  destruct x as [i c]. intros [dk cn rq] (Hc & Hu & Hd & Hm & done & HL & Hrq).
  cbn [conn disk requests] in *. subst cn.
  unfold embed_row, mbind, M_bind, bind, request_embedding.
  cbn [conn disk requests]. destruct (service rq c) as [e|].
  - unfold update_embedding, modify_conn, commit. cbn [conn disk requests].
    split; [done|]. cbn [disk]. split; [by apply db_update_embedding_unique|].
    split; [|split; [exact Hm|]].
    + cbn. eapply sql_select_update_head; [apply Hu|exact Hd].
    + exists (done ++ [(i, c)]). rewrite <- app_assoc. split; [done|].
      rewrite Hrq, fmap_app, <- app_assoc. done.
  - split; [done|]. exists done, (i, c), (rest ++ Lm). cbn [disk requests].
    unfold fetched. rewrite Hd, Hm, HL, Hrq, <- !app_assoc. done.
Qed.

Lemma embed_row_trace_markdown x rest :
  hoare (trace_markdown Ld Lm rq0 (x :: rest)) (embed_row service markdown_chunks_name x)
        (λ _, trace_markdown Ld Lm rq0 rest) (trace_failed Ld Lm rq0).
Proof.
  destruct x as [i c]. intros [dk cn rq] (Hc & Hu & Hd & Hm & done & HL & Hrq).
  cbn [conn disk requests] in *. subst cn.
  unfold embed_row, mbind, M_bind, bind, request_embedding.
  cbn [conn disk requests]. destruct (service rq c) as [e|].
  - unfold update_embedding, modify_conn, commit. cbn [conn disk requests].
    split; [done|]. cbn [disk]. split; [by apply db_update_embedding_unique|].
    split; [exact Hd|split].
    + cbn. eapply sql_select_update_head; [apply Hu|exact Hm].
    + exists (done ++ [(i, c)]). rewrite <- app_assoc. split; [done|].
      rewrite Hrq, fmap_app, <- !app_assoc. done.
  - split; [done|]. exists (Ld ++ done), (i, c), rest. cbn [disk requests].
    unfold fetched. rewrite Hd, Hm, HL, Hrq, fmap_app, <- !app_assoc. done.
Qed.
End backfill_trace.

Lemma generate_embeddings_trace service d0 rq0 :
  hoare (λ w, disk w = d0 ∧ requests w = rq0 ∧ unique_db d0)
        (generate_embeddings service)
        (λ _ w, requests w = rq0 ++ (fetched d0).*2 ∧ fetched (disk w) = [])
        (trace_failed (db_select_unembedded discourse_chunks_name d0)
                      (db_select_unembedded markdown_chunks_name d0) rq0).
Proof.
  set (Ld := db_select_unembedded discourse_chunks_name d0).
  set (Lm := db_select_unembedded markdown_chunks_name d0).
  unfold generate_embeddings.
  apply hoare_bind with
    (Q := λ _ w, conn w = d0 ∧ disk w = d0 ∧ requests w = rq0 ∧ unique_db d0);
    [by intros [dk cn rq] (Hd & Hrq & Hu); cbn in *; subst|]. intros ?.
  apply hoare_bind with
    (Q := λ ds w, ds = Ld ∧ conn w = d0 ∧ disk w = d0 ∧ requests w = rq0 ∧ unique_db d0);
    [by intros [dk cn rq] (Hc & Hd & Hrq & Hu); cbn in *; subst|]. intros discourse.
  apply hoare_bind with (Q := λ ms w, discourse = Ld ∧ ms = Lm ∧ trace_discourse Ld Lm rq0 Ld w).
  { intros [dk cn rq] (-> & Hc & Hd & Hrq & Hu). cbn in Hc, Hd, Hrq. subst dk cn rq.
    cbn [fetch_unembedded conn]. split; [done|]. split; [done|].
    split; [done|]. cbn [disk requests]. split; [done|]. split; [done|]. split; [done|].
    exists []. by rewrite app_nil_r. }
  intros markdown. cbn [for_].
  apply hoare_bind with (Q := λ _, trace_markdown Ld Lm rq0 []).
  - apply hoare_bind with (Q := λ _ w, markdown = Lm ∧ trace_discourse Ld Lm rq0 [] w).
    { intros w (-> & -> & Hw).
      pose proof (hoare_for (λ rest, trace_discourse Ld Lm rq0 rest)
                    (embed_row service discourse_chunks_name)
                    (trace_failed Ld Lm rq0) Ld
                    (λ x rest, embed_row_trace_discourse service Ld Lm rq0 x rest) w Hw) as H.
      destruct (for_ Ld _ w) as [w' [e|[]]]; [exact H|by split]. }
    intros ?. apply hoare_bind with (Q := λ _, trace_markdown Ld Lm rq0 []).
    { intros w (-> & Hc & Hu & Hd & Hm & done & HL & Hrq).
      assert (trace_markdown Ld Lm rq0 Lm w) as Hw.
      { repeat split; try done; try apply Hu. exists [].
        rewrite app_nil_r in HL. subst done. by rewrite app_nil_r. }
      exact (hoare_for (λ rest, trace_markdown Ld Lm rq0 rest)
               (embed_row service markdown_chunks_name)
               (trace_failed Ld Lm rq0) Lm
               (λ x rest, embed_row_trace_markdown service Ld Lm rq0 x rest) w Hw). }
    intros ?. apply hoare_ret with (Q := λ _, trace_markdown Ld Lm rq0 []).
  - intros ? [dk cn rq] (Hc & Hu & Hd & Hm & done & HL & Hrq).
    cbn [conn disk requests close] in *. unfold fetched. rewrite Hd, Hm.
    rewrite app_nil_r in HL. subst done. split; [|done].
    by rewrite Hrq, fmap_app.
Qed.

(** A run of the backfill that returns normally has sent exactly one
    request per row that was unembedded when it started, with the row's
    content as input: first the rows of [discourse_chunks], then those of
    [markdown_chunks], each table in the order of its rows. *)
Theorem generate_embeddings_requests (service : list str → str → option bytes)
    (w w' : world) :
  unique_db (disk w) →
  generate_embeddings service w = (w', inr ()) →
  requests w' = requests w ++ (fetched (disk w)).*2.
Proof.
  intros Hu Hrun.
  pose proof (generate_embeddings_trace service (disk w) (requests w) w
                (conj eq_refl (conj eq_refl Hu))) as H.
  rewrite Hrun in H. by destruct H.
Qed.

Lemma generate_embeddings_requests_witness :
  requests (generate_embeddings sample_service sample_world).1
  = requests sample_world ++ (fetched (disk sample_world)).*2.
Proof.
  apply (generate_embeddings_requests sample_service sample_world).
  - split; apply (bool_decide_unpack _); vm_compute; exact I.
  - vm_compute. reflexivity.
Defined.

(** A run of the backfill that raises has failed on one request, for a
    row [x] among those it fetched.  The rows fetched before [x] are
    embedded and committed; [x] and the rows after it are what a next
    run fetches, in the same order; and the requests sent were the
    contents of the rows up to and including [x]. *)
Theorem generate_embeddings_failure (service : list str → str → option bytes)
    (w w' : world) (e : exn) :
  unique_db (disk w) →
  generate_embeddings service w = (w', inl e) →
  e = EmbeddingRequestError
  ∧ ∃ done x rest,
      fetched (disk w) = done ++ x :: rest
      ∧ fetched (disk w') = x :: rest
      ∧ requests w' = requests w ++ done.*2 ++ [x.2].
Proof.
  intros Hu Hrun.
  pose proof (generate_embeddings_trace service (disk w) (requests w) w
                (conj eq_refl (conj eq_refl Hu))) as H.
  rewrite Hrun in H. exact H.
Qed.

Lemma generate_embeddings_failure_witness :
  ∃ done x rest,
    fetched (disk sample_world) = done ++ x :: rest
    ∧ fetched (disk (generate_embeddings flaky_service sample_world).1) = x :: rest
    ∧ requests (generate_embeddings flaky_service sample_world).1
      = requests sample_world ++ done.*2 ++ [x.2].
Proof.
  apply (generate_embeddings_failure flaky_service sample_world _ EmbeddingRequestError).
  - split; apply (bool_decide_unpack _); vm_compute; exact I.
  - vm_compute. reflexivity.
Defined.

Lemma unique_db_get tbl d : unique_db d → unique_ids (get_table tbl d).
Proof. intros [??]. by destruct tbl. Qed.

Lemma kept_refl d : kept d d.
Proof. by intros tbl k r Hk _. Qed.

Lemma kept_table_update {P} (t0 t : table P) e i k r :
  unique_ids t0 → i ∈ (sql_select_unembedded t0).*1 →
  rows t0 !! k = Some r → embedding r ≠ None → rows t !! k = Some r →
  rows (sql_update_embedding t e i).1 !! k = Some r.
Proof.
  intros Hnd Hi Hk He Hkept. rewrite sql_update_embedding_lookup, Hkept. cbn.
  destruct (N.eqb_spec (id r) i) as [Heq|]; [|done]. exfalso.
  apply elem_of_select_unembedded in Hi as (r' & [k' Hk']%list_elem_of_lookup & Hnone & Hid).
  unfold unique_ids in Hnd.
  assert (k = k') as <-.
  { eapply NoDup_lookup; [exact Hnd| |]; rewrite list_lookup_fmap.
    - by rewrite Hk.
    - rewrite Hk'. cbn. congruence. }
  congruence.
Qed.

Lemma kept_update d0 d tbl e i :
  unique_db d0 → i ∈ (db_select_unembedded tbl d0).*1 →
  kept d0 d → kept d0 (db_update_embedding tbl e i d).
Proof.
  intros [Hud Hum] Hi Hkept tbl' k r Hk He. specialize (Hkept tbl' k r Hk He).
  destruct tbl', tbl; cbn [get_table db_update_embedding discourse_chunks markdown_chunks
                           db_select_unembedded prov_of] in *;
    first [exact Hkept | by eapply kept_table_update].
Qed.

Lemma embed_row_kept service d0 tbl i c :
  unique_db d0 → i ∈ (db_select_unembedded tbl d0).*1 →
  invariant (both (kept d0)) (embed_row service tbl (i, c)).
Proof.
  intros Hu Hi. unfold embed_row.
  apply invariant_bind; [|intros e].
  { intros w [Hd Hc]. unfold request_embedding. by destruct (service _ _). }
  apply invariant_bind; [|intros ?; by intros w [Hd Hc]].
  apply modify_conn_both. intros d. by apply kept_update.
Qed.

Lemma for_embed_row_kept service d0 tbl dataset :
  unique_db d0 → dataset ⊆ db_select_unembedded tbl d0 →
  invariant (both (kept d0)) (for_ dataset (embed_row service tbl)).
Proof.
  intros Hu Hsub.
  eapply hoare_conseq;
    [apply (hoare_for (λ rest w, both (kept d0) w ∧ rest ⊆ dataset)
              (embed_row service tbl) (λ _, both (kept d0)) dataset)| | |].
  - intros [i c] rest w [Hw Hrest].
    assert (i ∈ (db_select_unembedded tbl d0).*1) as Hi.
    { apply list_elem_of_fmap. exists (i, c). split; [done|].
      apply Hsub, Hrest. left. }
    pose proof (embed_row_kept service d0 tbl i c Hu Hi w Hw) as H.
    destruct (embed_row service tbl (i, c) w) as [w' [e|[]]]; [done|].
    split; [done|]. intros x Hx. apply Hrest. by right.
  - by intros w Hw.
  - by intros ? w [Hw _].
  - by intros ? w Hw.
Qed.

Lemma generate_embeddings_kept service d0 :
  unique_db d0 →
  hoare (λ w, disk w = d0) (generate_embeddings service)
        (λ _, both (kept d0)) (λ _, both (kept d0)).
Proof.
  intros Hu. unfold generate_embeddings.
  apply hoare_bind with (Q := λ _ w, conn w = d0 ∧ both (kept d0) w).
  { intros [dk cn rq] Hd. cbn in Hd. subst dk. split; [done|]. split; apply kept_refl. }
  intros ?. apply hoare_bind with
    (Q := λ ds w, ds = db_select_unembedded discourse_chunks_name d0
                  ∧ conn w = d0 ∧ both (kept d0) w).
  { intros w [Hc Hw]. cbn. by rewrite Hc. }
  intros discourse. apply hoare_bind with
    (Q := λ ms w, discourse = db_select_unembedded discourse_chunks_name d0
                  ∧ ms = db_select_unembedded markdown_chunks_name d0
                  ∧ both (kept d0) w).
  { intros w (Hds & Hc & Hw). cbn. by rewrite Hc. }
  intros markdown. cbn [for_].
  apply hoare_bind with (Q := λ _, both (kept d0)); [|intros ?; by intros w [Hd Hc]].
  apply hoare_bind with
    (Q := λ _ w, markdown = db_select_unembedded markdown_chunks_name d0 ∧ both (kept d0) w).
  { intros w (-> & -> & Hw).
    pose proof (for_embed_row_kept service d0 discourse_chunks_name _ Hu
                  (reflexivity _) w Hw) as H.
    by destruct (for_ _ _ w) as [w' [e|[]]]. }
  intros ?. apply hoare_bind with (Q := λ _, both (kept d0)); [|intros ?; by intros w Hw].
  intros w (-> & Hw).
  exact (for_embed_row_kept service d0 markdown_chunks_name _ Hu (reflexivity _) w Hw).
Qed.

(** The backfill never rewrites an embedding: under the primary key,
    every row that had an embedding before a run of
    [generate_embeddings] is in the file afterwards exactly as it was,
    embedding included, whether the run returns or raises. *)
Theorem generate_embeddings_keeps_embedded (service : list str → str → option bytes)
    (w : world) :
  unique_db (disk w) →
  kept (disk w) (disk (generate_embeddings service w).1).
Proof.
  intros Hu. pose proof (generate_embeddings_kept service (disk w) Hu w eq_refl) as H.
  by destruct (generate_embeddings service w) as [w' [e|[]]]; destruct H.
Qed.

Lemma generate_embeddings_keeps_embedded_witness :
  kept (disk sample_world) (disk (generate_embeddings sample_service sample_world).1).
Proof.
  apply (generate_embeddings_keeps_embedded sample_service sample_world).
  split; apply (bool_decide_unpack _); vm_compute; exact I.
Defined.

(** ** The whole pipeline *)

Lemma main_unfold service posts files f :
  bindable posts →
  main service posts files f
  = (let d1 := Db (insert_posts (discourse_chunks (create_db f)) posts)
                  (markdown_chunks (create_db f)) in
     match process_markdown files (World d1 d1 []) with
     | (w2, inr _) => generate_embeddings service w2
     | (w2, inl e) => (w2, inl e)
     end).
Proof.
  intros Hb. unfold main. cbv zeta. unfold mbind at 1, M_bind at 1, bind at 1.
  rewrite process_discourse_run by done. cbv zeta. cbn [requests disk].
  unfold mbind at 1, M_bind at 1, bind at 1.
  by destruct (process_markdown files _) as [w2 [e|[]]].
Qed.

(** A normal return of [main] is a normal return of each step. *)
Lemma main_returns service posts files f w' :
  main service posts files f = (w', inr ()) →
  ∃ w1 w2,
    process_discourse posts (World (create_db f) (create_db f) []) = (w1, inr ())
    ∧ process_markdown files w1 = (w2, inr ())
    ∧ generate_embeddings service w2 = (w', inr ()).
Proof.
  unfold main. cbv zeta. unfold mbind at 1, M_bind at 1, bind at 1.
  destruct (process_discourse posts _) as [w1 [e|[]]] eqn:H1; [discriminate|].
  unfold mbind at 1, M_bind at 1, bind at 1.
  destruct (process_markdown files w1) as [w2 [e|[]]] eqn:H2; [discriminate|].
  intros Hrun. by exists w1, w2.
Qed.

Lemma process_discourse_returns posts w w' :
  process_discourse posts w = (w', inr ()) →
  conn w' = disk w' ∧ requests w' = requests w.
Proof.
  unfold process_discourse, mbind, M_bind, bind. cbn [connect].
  set (w0 := World (disk w) (disk w) (requests w)).
  pose proof (invariant_for (λ w, disk w = disk w0 ∧ requests w = requests w0)
                ingest_post posts (ingest_post_disk _ _) w0 (conj eq_refl eq_refl)) as Hinv.
  destruct (for_ posts ingest_post w0) as [w1 [e|[]]]; [discriminate|].
  destruct Hinv as [_ Hrq]. cbn. by intros [= <-].
Qed.

Lemma process_markdown_returns files w w' :
  process_markdown files w = (w', inr ()) →
  conn w' = disk w' ∧ requests w' = requests w.
Proof.
  rewrite process_markdown_body. unfold mbind, M_bind, bind. cbn [connect].
  set (w0 := World (disk w) (disk w) (requests w)).
  pose proof (for_markdown_body_disk (disk w) (requests w) files w0 (conj eq_refl eq_refl))
    as Hloop.
  destruct (for_ files markdown_body w0) as [w1 [e|[]]]; [discriminate|].
  destruct Hloop as [_ Hrq]. cbn. by intros [= <-].
Qed.

(** When [main] returns normally, no row of the store is left without
    an embedding, be it a row the file held before or a chunk this run
    stored. *)
Theorem main_embeds_everything (service : list str → str → option bytes)
    (posts : list Post.t) (files : list (str * str)) (f : db_file) (w' : world) :
  main service posts files f = (w', inr ()) →
  fetched (disk w') = [] ∧ conn w' = disk w'.
Proof.
  intros (w1 & w2 & _ & _ & Hrun)%main_returns.
  pose proof (generate_embeddings_post service w2 I) as H.
  rewrite Hrun in H. destruct H as (Hc & Hd & Hm). unfold fetched. by rewrite Hd, Hm.
Qed.

Lemma main_embeds_everything_witness :
  fetched (disk (main sample_service [sample_post 2500]
                   [(lit "a.md", sample_doc_no_header)] no_file).1) = []
  ∧ conn (main sample_service [sample_post 2500]
            [(lit "a.md", sample_doc_no_header)] no_file).1
    = disk (main sample_service [sample_post 2500]
              [(lit "a.md", sample_doc_no_header)] no_file).1.
Proof.
  apply (main_embeds_everything sample_service [sample_post 2500]
           [(lit "a.md", sample_doc_no_header)] no_file).
  vm_compute. reflexivity.
Defined.

(** When every post can be stored by SQLite and, for a listed [.md]
    file, the frontmatter pattern matches and one of the three field
    patterns matches nowhere in the block it delimits, [main] raises
    [AttributeError] before any request to the embedding service: the
    chunks of the posts are committed, without embeddings, and nothing
    of the documents is. *)
Theorem main_unmatched_document (service : list str → str → option bytes)
    (posts : list Post.t) (files : list (str * str)) (f : db_file) (name content : str) :
  bindable posts →
  (name, content) ∈ files → is_md (name, content) → field_unmatched content →
  ∃ w' new,
    main service posts files f = (w', inl AttributeError)
    ∧ requests w' = []
    ∧ markdown_chunks (disk w') = markdown_chunks (create_db f)
    ∧ rows (discourse_chunks (disk w')) = rows (discourse_chunks (create_db f)) ++ new
    ∧ row_data <$> new = posts ≫= post_chunks.
Proof.
  intros Hb Hin Hmd Hbad. rewrite main_unfold by done. cbv zeta.
  set (d1 := Db _ _).
  destruct (process_markdown_unmatched files name content (World d1 d1 []) Hin Hmd Hbad)
    as (w' & Hrun & Hdisk & Hrq).
  destruct (insert_posts_appends (discourse_chunks (create_db f)) posts) as (new & Hr & Hn).
  exists w', new. rewrite Hrun. split; [done|]. rewrite Hrq, Hdisk. by repeat split.
Qed.

Lemma main_unmatched_document_witness :
  ∃ w' new,
    main sample_service [sample_post 2500] sample_files no_file = (w', inl AttributeError)
    ∧ requests w' = []
    ∧ markdown_chunks (disk w') = markdown_chunks (create_db no_file)
    ∧ rows (discourse_chunks (disk w')) = rows (discourse_chunks (create_db no_file)) ++ new
    ∧ row_data <$> new = [sample_post 2500] ≫= post_chunks.
Proof.
  apply (main_unmatched_document sample_service [sample_post 2500] sample_files no_file
           (lit "b.md") sample_doc_title_only).
  - repeat constructor; vm_compute; reflexivity.
  - apply (bool_decide_unpack _). vm_compute. exact I.
  - vm_compute. reflexivity.
  - exists (lit "title: " ++ [QUOTE] ++ lit "X" ++ [QUOTE]). split.
    + apply (match_frontmatter_Some _ _ 19). vm_compute. reflexivity.
    + right. left. apply search_field_None. vm_compute. reflexivity.
Defined.

Lemma sql_select_all_null {P} (t : table P) :
  Forall (λ r, embedding r = None) (rows t) →
  sql_select_unembedded t = (λ r, (id r, content r)) <$> rows t.
Proof.
  unfold sql_select_unembedded. induction 1 as [|r l Hr Hl IH]; [done|].
  rewrite filter_cons_True by done. by rewrite !fmap_cons, IH.
Qed.

Lemma fetched_all_unembedded d : all_unembedded d → fetched d = all_rows d.
Proof.
  intros [Hd Hm]. unfold fetched, all_rows. cbn [db_select_unembedded].
  by rewrite !sql_select_all_null.
Qed.

Lemma all_rows_update tbl e i d : all_rows (db_update_embedding tbl e i d) = all_rows d.
Proof.
  unfold all_rows.
  destruct tbl; cbn [db_update_embedding discourse_chunks markdown_chunks
                     sql_update_embedding fst rows];
    f_equal; rewrite <- list_fmap_compose; apply list_fmap_ext;
    intros _ r _; cbn; by destruct (id r =? i)%N.
Qed.

Lemma sql_insert_all_null {P} (t : table P) p idx c :
  Forall (λ r, embedding r = None) (rows t) →
  Forall (λ r, embedding r = None) (rows (sql_insert t p idx c None)).
Proof. intros H. cbn [sql_insert rows]. apply Forall_app. split; [done|]. by constructor. Qed.

Lemma unique_unembedded_insert_discourse d p idx c :
  unique_unembedded d →
  unique_unembedded (Db (sql_insert (discourse_chunks d) p idx c None) (markdown_chunks d)).
Proof.
  intros [Hu [Hd Hm]]. split; [by apply unique_db_insert_discourse|].
  split; [by apply sql_insert_all_null|done].
Qed.

Lemma unique_unembedded_insert_markdown d p idx c :
  unique_unembedded d →
  unique_unembedded (Db (discourse_chunks d) (sql_insert (markdown_chunks d) p idx c None)).
Proof.
  intros [Hu [Hd Hm]]. split; [by apply unique_db_insert_markdown|].
  split; [done|by apply sql_insert_all_null].
Qed.

(** Started on a store without embeddings (a new file, for one), a run
    of [main] that returns normally has sent one request per row of the
    final store, with the content of the row as input, in the order of
    the rows, [discourse_chunks] first; and it leaves no row unembedded. *)
Theorem main_one_request_per_chunk (service : list str → str → option bytes)
    (posts : list Post.t) (files : list (str * str)) (f : db_file) (w' : world) :
  unique_db (create_db f) → all_unembedded (create_db f) →
  main service posts files f = (w', inr ()) →
  requests w' = (all_rows (disk w')).*2 ∧ fetched (disk w') = [].
Proof.
  intros Hu Hn (w1 & w2 & Hpd & Hmd & Hrun)%main_returns.
  set (d0 := create_db f) in *.
  assert (both unique_unembedded (World d0 d0 [])) as H0 by (by split).
  pose proof (invariant_run _ _ _
                (process_discourse_both unique_unembedded
                   unique_unembedded_insert_discourse posts) H0) as H1.
  rewrite Hpd in H1. cbn [fst] in H1.
  apply process_discourse_returns in Hpd as [Hc1 Hrq1]. cbn [requests] in Hrq1.
  pose proof (invariant_run _ _ _
                (process_markdown_both unique_unembedded
                   unique_unembedded_insert_markdown files) H1) as H2.
  rewrite Hmd in H2. cbn [fst] in H2.
  apply process_markdown_returns in Hmd as [Hc2 Hrq2].
  destruct H2 as [[Hu2 Hn2] _].
  pose proof (generate_embeddings_trace service (disk w2) (requests w2) w2
                (conj eq_refl (conj eq_refl Hu2))) as Ht.
  pose proof (invariant_run (both (λ d, all_rows d = all_rows (disk w2))) _
                (World (disk w2) (disk w2) (requests w2))
                (generate_embeddings_both _
                   (λ d tbl e i H, eq_trans (all_rows_update tbl e i d) H) service)
                (conj eq_refl eq_refl)) as Hrows.
  change (generate_embeddings service (World (disk w2) (disk w2) (requests w2)))
    with (generate_embeddings service w2) in Hrows.
  rewrite Hrun in Ht, Hrows. cbn [fst] in Hrows. destruct Ht as [Hrq Hf], Hrows as [Hrows _].
  split; [|done]. by rewrite Hrq, Hrq2, Hrq1, Hrows, fetched_all_unembedded.
Qed.

Lemma main_one_request_per_chunk_witness :
  requests (main sample_service [sample_post 2500]
              [(lit "a.md", sample_doc_no_header)] no_file).1
  = (all_rows (disk (main sample_service [sample_post 2500]
                       [(lit "a.md", sample_doc_no_header)] no_file).1)).*2
  ∧ fetched (disk (main sample_service [sample_post 2500]
                     [(lit "a.md", sample_doc_no_header)] no_file).1) = [].
Proof.
  apply (main_one_request_per_chunk sample_service [sample_post 2500]
           [(lit "a.md", sample_doc_no_header)] no_file).
  - split; apply (bool_decide_unpack _); vm_compute; exact I.
  - split; apply (bool_decide_unpack _); vm_compute; exact I.
  - vm_compute. reflexivity.
Defined.
